(** * The property navigator of go-scim (pkg/v2/prop/navigator.go)

    A shallow embedding of [defaultNavigator]: a stack of property references
    plus one sticky error slot.  The properties themselves, their events and
    the [spec] error sentinels live outside navigator.go; they are taken as
    an interface ([PropertyAPI]) over an explicit world, the property tree
    the navigator holds references into.  Every call that leaves the
    navigator and enters a property is recorded, with its answer, in a trace,
    so that "which capability was invoked, how often and in which order" is
    a statement about a list. *)

From stdpp Require Import base list strings pretty.
From Stdlib Require Import ZArith Lia.

Set Default Proof Using "Type".
Open Scope Z_scope.
Open Scope nat_scope.

(** ** Errors *)

(** The two sentinels of package [spec] that navigator.go wraps. *)
Inductive spec_error : Type :=
| ErrInvalidPath
| ErrNoTarget.

(** A Go [error] as the navigator sees it: either one it built itself with
    [fmt.Errorf("%w: ...", sentinel, ...)], which unwraps to the sentinel and
    carries the formatted text, or one handed over by a property, a callback
    or a notification, about which nothing is known. *)
Inductive error (E : Type) : Type :=
| Errorf (wrapped : spec_error) (text : string)
| Foreign (e : E).
Arguments Errorf {E} wrapped text.
Arguments Foreign {E} e.

(** [errors.Is(err, sentinel)] on the errors above. *)
Definition errors_Is {E} (e : error E) (s : spec_error) : bool :=
  match e, s with
  | Errorf ErrInvalidPath _, ErrInvalidPath => true
  | Errorf ErrNoTarget _, ErrNoTarget => true
  | _, _ => false
  end.

(** The [index interface{}] argument of [ChildAtIndex]: [Dot] passes a
    string, [At] passes an int. *)
Inductive Index : Type :=
| IndexName (name : string)
| IndexInt (i : Z).

(** ** The property interface *)

(** What navigator.go calls on a [Property], an [*Event] and the [spec]
    package.  Properties are mutable objects shared with the rest of the
    program, so every method is a transformer of the world they live in.
    A Go result [(T, error)] is a sum; a pointer the navigator tests against
    nil is an option. *)
Class PropertyAPI : Type := {
  World : Type;
  Property : Type;
  Value : Type;
  Event : Type;
  Events : Type;
  ForeignErr : Type;
  (** [spec.ErrInvalidPath.Error()], [spec.ErrNoTarget.Error()] *)
  sentinel_text : spec_error -> string;
  ChildAtIndex : Property -> Index -> World -> World * (Property + error ForeignErr);
  FindChild : Property -> (World -> Property -> bool) -> World -> World * option Property;
  ForEachChild_prop :
    Property -> (Z -> Property -> World -> World * option (error ForeignErr)) ->
    World -> World * option (error ForeignErr);
  AttributePath : Property -> World -> World * string;
  Add_prop : Property -> Value -> World -> World * (option Event + error ForeignErr);
  Replace_prop : Property -> Value -> World -> World * (option Event + error ForeignErr);
  Delete_prop : Property -> World -> World * (option Event + error ForeignErr);
  ToEvents : Event -> World -> World * Events;
  Notify : Property -> Events -> World -> World * option (error ForeignErr)
}.

Section Navigator.
Context {api : PropertyAPI}.

Abbreviation err_t := (error ForeignErr).

(** One call from the navigator into the property tree, with its answer. *)
Inductive Call : Type :=
| CallChildAtIndex (p : Property) (i : Index) (r : Property + err_t)
| CallFindChild (p : Property) (r : option Property)
| CallForEachChild (p : Property) (r : option err_t)
| CallAttributePath (p : Property) (r : string)
| CallAdd (p : Property) (v : Value) (r : option Event + err_t)
| CallReplace (p : Property) (v : Value) (r : option Event + err_t)
| CallDelete (p : Property) (r : option Event + err_t)
| CallToEvents (ev : Event) (r : Events)
| CallNotify (p : Property) (events : Events) (r : option err_t).

(** ** Computations: world passing, a trace of calls, and Go panics *)

(** [None] is a run-time panic (index out of range on the stack). *)
Definition M (A : Type) : Type := World -> option (A * World * list Call).

Definition ret {A} (a : A) : M A := fun w => Some (a, w, []).

Definition bind {A B} (m : M A) (f : A -> M B) : M B :=
  fun w =>
    match m w with
    | None => None
    | Some (a, w1, t1) =>
        match f a w1 with
        | None => None
        | Some (b, w2, t2) => Some (b, w2, t1 ++ t2)
        end
    end.

Definition panic {A} : M A := fun _ => None.

(** Invoke a capability and record the call with its answer. *)
Definition call {A} (f : World -> World * A) (entry : A -> Call) : M A :=
  fun w => let '(w1, r) := f w in Some (r, w1, [entry r]).

Notation "'do' x <- m ; k" := (bind m (fun x => k))
  (at level 10, x name, m at level 100, k at level 200,
   format "'[v' 'do'  x  <-  m ; '/' k ']'").

(** ** The navigator *)

Record defaultNavigator : Type := mkNavigator {
  stack : list Property;
  err : option err_t
}.

Definition Navigate (property : Property) : defaultNavigator :=
  {| stack := [property]; err := None |}.

Definition Error (n : defaultNavigator) : option err_t := err n.

Definition HasError (n : defaultNavigator) : bool :=
  match err n with Some _ => true | None => false end.

Definition ClearError (n : defaultNavigator) : defaultNavigator :=
  {| stack := stack n; err := None |}.

Definition Depth (n : defaultNavigator) : nat := length (stack n).

(** [n.stack[0]]; [None] where Go panics. *)
Definition Source (n : defaultNavigator) : option Property := stack n !! 0.

(** [n.stack[len(n.stack)-1]]; on an empty stack the index is -1 in Go and
    the truncated 0 here, out of range either way. *)
Definition Current (n : defaultNavigator) : option Property :=
  stack n !! (length (stack n) - 1).

Definition Retract (n : defaultNavigator) : defaultNavigator :=
  if decide (1 < Depth n)
  then {| stack := take (length (stack n) - 1) (stack n); err := err n |}
  else n.

(** [n.Current()] inside a method body. *)
Definition current (n : defaultNavigator) : M Property :=
  match Current n with
  | Some p => ret p
  | None => panic
  end.

Definition Dot (name : string) (n : defaultNavigator) : M defaultNavigator :=
  match err n with
  | Some _ => ret n
  | None =>
      do cur <- current n ;
      do r <- call (ChildAtIndex cur (IndexName name))
                (CallChildAtIndex cur (IndexName name)) ;
      match r with
      | inr _ =>
          do cur' <- current n ;
          do path <- call (AttributePath cur') (CallAttributePath cur') ;
          ret {| stack := stack n;
                 err := Some (Errorf ErrInvalidPath
                          (sentinel_text ErrInvalidPath +:+ ": no attribute named '"
                             +:+ name +:+ "' from '" +:+ path +:+ "'")) |}
      | inl child => ret {| stack := stack n ++ [child]; err := err n |}
      end
  end.

Definition At (index : Z) (n : defaultNavigator) : M defaultNavigator :=
  match err n with
  | Some _ => ret n
  | None =>
      do cur <- current n ;
      do r <- call (ChildAtIndex cur (IndexInt index))
                (CallChildAtIndex cur (IndexInt index)) ;
      match r with
      | inr _ =>
          do cur' <- current n ;
          do path <- call (AttributePath cur') (CallAttributePath cur') ;
          ret {| stack := stack n;
                 err := Some (Errorf ErrNoTarget
                          (sentinel_text ErrNoTarget +:+ ": no target at index '"
                             +:+ pretty index +:+ "' from '" +:+ path +:+ "'")) |}
      | inl child => ret {| stack := stack n ++ [child]; err := err n |}
      end
  end.

Definition Where (criteria : World -> Property -> bool) (n : defaultNavigator)
  : M defaultNavigator :=
  match err n with
  | Some _ => ret n
  | None =>
      do cur <- current n ;
      do r <- call (FindChild cur criteria) (CallFindChild cur) ;
      match r with
      | None =>
          do cur' <- current n ;
          do path <- call (AttributePath cur') (CallAttributePath cur') ;
          ret {| stack := stack n;
                 err := Some (Errorf ErrNoTarget
                          (sentinel_text ErrNoTarget
                             +:+ ": no target meeting criteria from '"
                             +:+ path +:+ "'")) |}
      | Some child => ret {| stack := stack n ++ [child]; err := err n |}
      end
  end.

(** [ForEachChild] has a pointer receiver it never assigns to; the navigator
    is returned next to the error so that its state after the call can be
    read off. *)
Definition ForEachChild
    (callback : Z -> Property -> World -> World * option err_t)
    (n : defaultNavigator) : M (defaultNavigator * option err_t) :=
  match err n with
  | Some e => ret (n, Some e)
  | None =>
      do cur <- current n ;
      do r <- call (ForEachChild_prop cur callback) (CallForEachChild cur) ;
      ret (n, r)
  end.

(** The loop of [delegateMod]: [for i := len(n.stack) - 1; i >= 0; i--],
    with [k] standing for [i + 1]. *)
Fixpoint notifyFrom (s : list Property) (events : Events) (k : nat)
  : M (option err_t) :=
  match k with
  | 0 => ret None
  | S i =>
      match s !! i with
      | None => panic
      | Some p =>
          do r <- call (Notify p events) (CallNotify p events) ;
          match r with
          | Some e => ret (Some e)
          | None => notifyFrom s events i
          end
      end
  end.

Definition delegateMod (modify : M (option Event + err_t)) (n : defaultNavigator)
  : M (option err_t) :=
  match err n with
  | Some e => ret (Some e)
  | None =>
      do r <- modify ;
      match r with
      | inr e => ret (Some e)
      | inl None => ret None
      | inl (Some ev) =>
          do events <- call (ToEvents ev) (CallToEvents ev) ;
          notifyFrom (stack n) events (length (stack n))
      end
  end.

Definition Add (value : Value) (n : defaultNavigator) : M defaultNavigator :=
  do e <- delegateMod
            (do cur <- current n ; call (Add_prop cur value) (CallAdd cur value)) n ;
  ret {| stack := stack n; err := e |}.

Definition Replace (value : Value) (n : defaultNavigator) : M defaultNavigator :=
  do e <- delegateMod
            (do cur <- current n ;
             call (Replace_prop cur value) (CallReplace cur value)) n ;
  ret {| stack := stack n; err := e |}.

Definition Delete (n : defaultNavigator) : M defaultNavigator :=
  do e <- delegateMod
            (do cur <- current n ; call (Delete_prop cur) (CallDelete cur)) n ;
  ret {| stack := stack n; err := e |}.

(** ** The three mutations, and the methods as data *)

(** [Add], [Replace] and [Delete] differ only in the property method the
    closure handed to [delegateMod] calls. *)
Inductive Mutation : Type :=
| MutAdd (value : Value)
| MutReplace (value : Value)
| MutDelete.

Definition mutate (m : Mutation) (n : defaultNavigator) : M defaultNavigator :=
  match m with
  | MutAdd value => Add value n
  | MutReplace value => Replace value n
  | MutDelete => Delete n
  end.

(** The property method behind a mutation, and its entry in the trace. *)
Definition mutate_prop (m : Mutation) (p : Property)
  : World -> World * (option Event + err_t) :=
  match m with
  | MutAdd value => Add_prop p value
  | MutReplace value => Replace_prop p value
  | MutDelete => Delete_prop p
  end.

Definition CallMutation (m : Mutation) (p : Property) (r : option Event + err_t)
  : Call :=
  match m with
  | MutAdd value => CallAdd p value r
  | MutReplace value => CallReplace p value r
  | MutDelete => CallDelete p r
  end.

(** The properties notified in a trace, in the order of the calls. *)
Definition notified (t : list Call) : list Property :=
  omap (fun c => match c with CallNotify p _ _ => Some p | _ => None end) t.

(** The trace of notifying each of [ps] in turn, every one accepting. *)
Definition accepted (events : Events) (ps : list Property) : list Call :=
  (fun p => CallNotify p events None) <$> ps.

(** Whether each of [ps], notified in turn with [events], accepts, and the
    world the last of them leaves; [None] as soon as one refuses. *)
Fixpoint all_accept (events : Events) (ps : list Property) (w : World)
  : option World :=
  match ps with
  | [] => Some w
  | p :: rest =>
      match Notify p events w with
      | (w1, None) => all_accept events rest w1
      | (_, Some _) => None
      end
  end.

(** The stack-advancing calls. *)
Inductive Step : Type :=
| StepDot (name : string)
| StepAt (index : Z)
| StepWhere (criteria : World -> Property -> bool).

Definition advance (s : Step) (n : defaultNavigator) : M defaultNavigator :=
  match s with
  | StepDot name => Dot name n
  | StepAt index => At index n
  | StepWhere criteria => Where criteria n
  end.

Fixpoint advance_all (steps : list Step) (n : defaultNavigator)
  : M defaultNavigator :=
  match steps with
  | [] => ret n
  | s :: rest => do n1 <- advance s n ; advance_all rest n1
  end.

(** Whether a call in the trace is a child resolution, and how it went. *)
Definition resolution (c : Call) : option bool :=
  match c with
  | CallChildAtIndex _ _ (inl _) => Some true
  | CallChildAtIndex _ _ (inr _) => Some false
  | CallFindChild _ (Some _) => Some true
  | CallFindChild _ None => Some false
  | _ => None
  end.

Definition resolutions (t : list Call) : list bool := omap resolution t.

(** How many resolutions succeeded before the first one that failed. *)
Fixpoint resolved_before_failure (rs : list bool) : nat :=
  match rs with
  | true :: rest => S (resolved_before_failure rest)
  | _ => 0
  end.

(** Every method of the [Navigator] interface. *)
Inductive Method : Type :=
| InvokeError
| InvokeHasError
| InvokeClearError
| InvokeDepth
| InvokeSource
| InvokeCurrent
| InvokeRetract
| InvokeDot (name : string)
| InvokeAt (index : Z)
| InvokeWhere (criteria : World -> Property -> bool)
| InvokeAdd (value : Value)
| InvokeReplace (value : Value)
| InvokeDelete
| InvokeForEachChild (callback : Z -> Property -> World -> World * option err_t).

(** One method call, keeping the navigator it leaves behind.  The accessors
    leave it as it is; [Source] and [Current] index the stack and panic
    where the index is out of range. *)
Definition invoke (m : Method) (n : defaultNavigator) : M defaultNavigator :=
  match m with
  | InvokeError | InvokeHasError | InvokeDepth => ret n
  | InvokeClearError => ret (ClearError n)
  | InvokeSource => match Source n with Some _ => ret n | None => panic end
  | InvokeCurrent => do _p <- current n ; ret n
  | InvokeRetract => ret (Retract n)
  | InvokeDot name => Dot name n
  | InvokeAt index => At index n
  | InvokeWhere criteria => Where criteria n
  | InvokeAdd value => Add value n
  | InvokeReplace value => Replace value n
  | InvokeDelete => Delete n
  | InvokeForEachChild callback => do r <- ForEachChild callback n ; ret (fst r)
  end.

Fixpoint invoke_all (ms : list Method) (n : defaultNavigator)
  : M defaultNavigator :=
  match ms with
  | [] => ret n
  | m :: rest => do n1 <- invoke m n ; invoke_all rest n1
  end.

(** The entry points that test the sticky error before anything else. *)
Definition guarded (m : Method) : bool :=
  match m with
  | InvokeDot _ | InvokeAt _ | InvokeWhere _
  | InvokeAdd _ | InvokeReplace _ | InvokeDelete | InvokeForEachChild _ => true
  | _ => false
  end.

(** ** Reading a trace and a method list *)

(** The error a call came back with, for the calls whose failure
    [delegateMod] returns: the property's mutation and [Notify]. *)
Definition refusal (c : Call) : option err_t :=
  match c with
  | CallAdd _ _ (inr e) | CallReplace _ _ (inr e) | CallDelete _ (inr e) => Some e
  | CallNotify _ _ (Some e) => Some e
  | _ => None
  end.

(** The property a call was made on; [ToEvents] is called on an event. *)
Definition receiver (c : Call) : option Property :=
  match c with
  | CallChildAtIndex p _ _ | CallFindChild p _ | CallForEachChild p _
  | CallAttributePath p _ | CallAdd p _ _ | CallReplace p _ _ | CallDelete p _
  | CallNotify p _ _ => Some p
  | CallToEvents _ _ => None
  end.

Definition is_Notify (c : Call) : bool :=
  match c with CallNotify _ _ _ => true | _ => false end.

Definition advancing (m : Method) : bool :=
  match m with InvokeDot _ | InvokeAt _ | InvokeWhere _ => true | _ => false end.

Definition retracting (m : Method) : bool :=
  match m with InvokeRetract => true | _ => false end.

Definition clearing (m : Method) : bool :=
  match m with InvokeClearError => true | _ => false end.

(** How many of the methods satisfy [f]. *)
Definition tally (f : Method -> bool) (ms : list Method) : nat :=
  length (List.filter f ms).

End Navigator.

(** ** A small property tree to run the navigator on

    The resource of the spec's scenario: root [R] has a multi-valued child
    "emails" with one element [E0], which has a simple field "value".
    Properties are numbered 0 ([R]), 1 (emails), 2 ([E0]), 3 (value). *)
Module Sample.

Record world : Type := mkWorld {
  value_of_3 : string;      (* what the "value" field holds, empty if unassigned *)
  heard : list nat;         (* who was notified, oldest first *)
  refusing : list nat       (* whose Notify fails *)
}.

Definition fail (msg : string) : error string := Foreign msg.

Definition children (p : nat) : list nat :=
  match p with
  | 0 => [1]
  | 1 => [2]
  | 2 => [3]
  | _ => []
  end.

Definition childAtIndex (p : nat) (i : Index) (w : world)
  : world * (nat + error string) :=
  match p, i with
  | 0, IndexName name =>
      if String.eqb name "emails" then (w, inl 1) else (w, inr (fail "no such attribute"))
  | 1, IndexInt 0%Z => (w, inl 2)
  | 2, IndexName name =>
      if String.eqb name "value" then (w, inl 3) else (w, inr (fail "no such attribute"))
  | _, _ => (w, inr (fail "no such child"))
  end.

Definition findChild (p : nat) (criteria : world -> nat -> bool) (w : world)
  : world * option nat :=
  (w, List.find (criteria w) (children p)).

Fixpoint each (callback : Z -> nat -> world -> world * option (error string))
    (i : Z) (ks : list nat) (w : world) : world * option (error string) :=
  match ks with
  | [] => (w, None)
  | k :: rest =>
      let '(w1, e) := callback i k w in
      match e with
      | Some e => (w1, Some e)
      | None => each callback (i + 1)%Z rest w1
      end
  end.

Definition forEachChild (p : nat)
    (callback : Z -> nat -> world -> world * option (error string)) (w : world)
  : world * option (error string) :=
  each callback 0%Z (children p) w.

Definition attributePath (p : nat) (w : world) : world * string :=
  (w, match p with
      | 0 => ""
      | 1 | 2 => "emails"
      | _ => "emails.value"
      end).

(** An event says which property changed and to what. *)
Definition assign (p : nat) (v : string) (w : world)
  : world * (option (nat * string) + error string) :=
  match p with
  | 3 =>
      if String.eqb v (value_of_3 w) then (w, inl None)
      else ({| value_of_3 := v; heard := heard w; refusing := refusing w |},
            inl (Some (p, v)))
  | _ => (w, inr (fail "not a simple property"))
  end.

Definition notify (p : nat) (events : list (nat * string)) (w : world)
  : world * option (error string) :=
  if bool_decide (p ∈ refusing w) then (w, Some (fail "refused"))
  else ({| value_of_3 := value_of_3 w; heard := heard w ++ [p];
           refusing := refusing w |}, None).

#[export] Instance api : PropertyAPI := {|
  World := world;
  Property := nat;
  Value := string;
  Event := nat * string;
  Events := list (nat * string);
  ForeignErr := string;
  sentinel_text := fun s => match s with
                            | ErrInvalidPath => "invalidPath"
                            | ErrNoTarget => "noTarget"
                            end;
  ChildAtIndex := childAtIndex;
  FindChild := findChild;
  ForEachChild_prop := forEachChild;
  AttributePath := attributePath;
  Add_prop := assign;
  Replace_prop := assign;
  Delete_prop := fun p => assign p "";
  ToEvents := fun ev w => (w, [ev]);
  Notify := notify
|}.

Definition quiet : world := {| value_of_3 := ""; heard := []; refusing := [] |}.

(** The same tree with the "emails" collection refusing notifications. *)
Definition emails_refuse : world :=
  {| value_of_3 := ""; heard := []; refusing := [1] |}.

(** The navigator after [Dot("emails").At(0).Dot("value")]. *)
Definition at_value : defaultNavigator := {| stack := [0; 1; 2; 3]; err := None |}.

Definition faulted : defaultNavigator :=
  {| stack := [0; 1; 2]; err := Some (Foreign "earlier failure") |}.

(** [Replace("a@b.com")], the event it yields on "value", and that event
    flattened. *)
Definition replace_mail : @Mutation api := @MutReplace api "a@b.com".
Definition mail_event : @Event api := (3, "a@b.com").
Definition mail_events : @Events api := [mail_event].
Definition with_mail (w : world) : world :=
  {| value_of_3 := "a@b.com"; heard := heard w; refusing := refusing w |}.

(** A callback that fails on the first child. *)
Definition stop_at_once (i : Z) (child : nat) (w : world)
  : world * option (error string) :=
  (w, Some (fail "stop")).

End Sample.

(** * Properties of the navigator *)

Section NavigatorFacts.
Context {api : PropertyAPI}.

Implicit Types (n : defaultNavigator) (w : World) (p cur child : Property).
Implicit Types (t : list Call) (m : Mutation) (events : Events).

(** ** The stack accessors *)

Lemma Current_last n : Current n = last (stack n).
Proof. unfold Current. by rewrite last_lookup, Nat.sub_1_r. Qed.

Lemma Current_push (s : list Property) child e :
  Current {| stack := s ++ [child]; err := e |} = Some child.
Proof. rewrite Current_last. simpl. apply last_snoc. Qed.

Lemma Current_is_Some n : stack n ≠ [] → is_Some (Current n).
Proof.
  rewrite Current_last. destruct (stack n) as [|x s] using rev_ind; [done|].
  intros _. rewrite last_snoc. eauto.
Qed.

Lemma current_run n cur w : Current n = Some cur → current n w = Some (cur, w, []).
Proof. unfold current. by intros ->. Qed.

(** ** Retract *)

Lemma Retract_push (s : list Property) child e :
  s ≠ [] → Retract {| stack := s ++ [child]; err := e |} = {| stack := s; err := e |}.
Proof.
  intros Hs. unfold Retract, Depth. simpl. rewrite length_app. simpl.
  assert (0 < length s) by (destruct s; [done | simpl; lia]).
  rewrite decide_True by lia. f_equal.
  replace (length s + 1 - 1) with (length s) by lia.
  by rewrite take_app_length.
Qed.

Lemma Retract_shallow n : Depth n ≤ 1 → Retract n = n.
Proof. intros H. unfold Retract. by rewrite decide_False by lia. Qed.

(** C4. [Retract] at depth 1 is a no-op (depth and source stay); at a greater
    depth it drops exactly the last element, so that [Current] is again what
    it was before that element was pushed, and the source stays.  It neither
    reads nor changes the sticky error. *)
Theorem Retract_spec n :
  (Depth n ≤ 1 → Retract n = n)
  ∧ (1 < Depth n →
       Depth (Retract n) = Depth n - 1
       ∧ Source (Retract n) = Source n
       ∧ stack (Retract n) = take (Depth n - 1) (stack n))
  ∧ (∀ (s : list Property) child,
       s ≠ [] → stack n = s ++ [child] →
       stack (Retract n) = s
       ∧ Current (Retract n) = Current {| stack := s; err := err n |})
  ∧ err (Retract n) = err n
  ∧ (∀ e, stack (Retract {| stack := stack n; err := e |}) = stack (Retract n)).
Proof.
  split; [apply Retract_shallow|]. split; [|split; [|split]].
  - intros H. unfold Retract. rewrite decide_True by done.
    unfold Depth, Source in *. simpl. split; [|split; [|done]].
    + rewrite length_take. lia.
    + rewrite lookup_take_lt by lia. done.
  - intros s child Hs Hn. destruct n as [s0 e0]. simpl in *. subst s0.
    rewrite Retract_push by done. done.
  - unfold Retract. by destruct (decide _).
  - intros e. unfold Retract, Depth. simpl. by destruct (decide _).
Qed.

(** ** ClearError *)

(** C7. [ClearError] empties the error slot and touches nothing else: depth,
    source and current are those of the faulted navigator, [HasError] is
    false, and a [Dot] that resolves then pushes the child. *)
Theorem ClearError_only_resets_error n :
  stack (ClearError n) = stack n
  ∧ Depth (ClearError n) = Depth n
  ∧ Source (ClearError n) = Source n
  ∧ Current (ClearError n) = Current n
  ∧ HasError (ClearError n) = false
  ∧ (∀ name cur child w w1,
       Current n = Some cur →
       ChildAtIndex cur (IndexName name) w = (w1, inl child) →
       Dot name (ClearError n) w
       = Some ({| stack := stack n ++ [child]; err := None |}, w1,
               [CallChildAtIndex cur (IndexName name) (inl child)])).
Proof.
  repeat split.
  intros name cur child w w1 Hcur Hres.
  unfold Dot, bind, call. simpl.
  rewrite (current_run (ClearError n) cur w) by exact Hcur.
  by rewrite Hres.
Qed.

(** ** The faulted state *)

Lemma Dot_faulted n e name w : err n = Some e → Dot name n w = Some (n, w, []).
Proof. unfold Dot. by intros ->. Qed.

Lemma At_faulted n e index w : err n = Some e → At index n w = Some (n, w, []).
Proof. unfold At. by intros ->. Qed.

Lemma Where_faulted n e criteria w :
  err n = Some e → Where criteria n w = Some (n, w, []).
Proof. unfold Where. by intros ->. Qed.

Lemma mutate_faulted n e m w : err n = Some e → mutate m n w = Some (n, w, []).
Proof.
  intros He. destruct n as [s e0]. simpl in He. subst e0.
  by destruct m.
Qed.

Lemma ForEachChild_faulted n e callback w :
  err n = Some e → ForEachChild callback n w = Some ((n, Some e), w, []).
Proof. unfold ForEachChild. by intros ->. Qed.

Lemma invoke_guarded_faulted n e (method : Method) w :
  err n = Some e → guarded method = true → invoke method n w = Some (n, w, []).
Proof.
  intros He Hg. destruct method; try discriminate Hg; simpl.
  - by apply Dot_faulted with e.
  - by apply At_faulted with e.
  - by apply Where_faulted with e.
  - by apply (mutate_faulted n e (MutAdd value)).
  - by apply (mutate_faulted n e (MutReplace value)).
  - by apply (mutate_faulted n e MutDelete).
  - unfold bind. by rewrite (ForEachChild_faulted n e).
Qed.

(** C6. In the faulted state [Dot], [At], [Where], [Add], [Replace] and
    [Delete] hand back the very same navigator, the world is as it was and
    no call into a property is made; [ForEachChild] returns the stored error,
    again without a call.  Any run of such calls, however long, ends in the
    same navigator with the same error. *)
Theorem faulted_is_inert n e :
  err n = Some e →
  (∀ name w, Dot name n w = Some (n, w, []))
  ∧ (∀ index w, At index n w = Some (n, w, []))
  ∧ (∀ criteria w, Where criteria n w = Some (n, w, []))
  ∧ (∀ m w, mutate m n w = Some (n, w, []))
  ∧ (∀ callback w, ForEachChild callback n w = Some ((n, Some e), w, []))
  ∧ (∀ (methods : list Method) w,
       forallb guarded methods = true → invoke_all methods n w = Some (n, w, [])).
Proof.
  intros He. repeat split; intros.
  - by apply Dot_faulted with e.
  - by apply At_faulted with e.
  - by apply Where_faulted with e.
  - by apply mutate_faulted with e.
  - by apply ForEachChild_faulted.
  - revert H. induction methods as [|method rest IH]; [done|].
    simpl. intros [Hg Hrest]%andb_prop. unfold bind.
    rewrite (invoke_guarded_faulted n e) by done.
    by rewrite IH.
Qed.

(** ** Upward propagation *)

Lemma accepted_cons events p (ps : list Property) :
  accepted events (p :: ps) = CallNotify p events None :: accepted events ps.
Proof. done. Qed.

Lemma notified_accepted events (ps : list Property) :
  notified (accepted events ps) = ps.
Proof. induction ps as [|p ps IH]; [done|]. simpl. by rewrite IH. Qed.

Lemma notified_app t1 t2 : notified (t1 ++ t2) = notified t1 ++ notified t2.
Proof. apply omap_app. Qed.

(** The loop visits the levels below [k] from the top down; it either gets
    through all of them or ends at the first level [i] that refuses. *)
Lemma notifyFrom_runs (s : list Property) events k :
  k ≤ length s →
  ∀ w, ∃ r w' t,
    notifyFrom s events k w = Some (r, w', t)
    ∧ match r with
      | None => t = accepted events (reverse (take k s))
      | Some e =>
          ∃ i p, i < k ∧ s !! i = Some p
                 ∧ t = accepted events (reverse (drop (S i) (take k s)))
                       ++ [CallNotify p events (Some e)]
      end.
Proof.
  induction k as [|k IH]; intros Hk w.
  - exists None, w, []. split; [done|]. by rewrite take_0.
  - destruct (lookup_lt_is_Some_2 s k) as [p Hp]; [lia|].
    simpl. rewrite Hp. unfold bind, call.
    destruct (Notify p events w) as [w1 [e|]] eqn:HN.
    + exists (Some e), w1, [CallNotify p events (Some e)]. split; [done|].
      exists k, p. split; [lia|]. split; [done|].
      rewrite drop_ge; [done|]. rewrite length_take. lia.
    + destruct (IH ltac:(lia) w1) as (r & w' & t & Hrun & Hr).
      rewrite Hrun. exists r, w', (CallNotify p events None :: t).
      split; [done|]. rewrite (take_S_r s k p Hp). destruct r as [e|].
      * destruct Hr as (i & q & Hi & Hq & ->).
        exists i, q. split; [lia|]. split; [done|].
        rewrite drop_app_le by (rewrite length_take; lia).
        by rewrite reverse_snoc, accepted_cons.
      * subst t. by rewrite reverse_snoc, accepted_cons.
Qed.

(** What a mutation does on a navigator that is clear, step by step. *)
Lemma mutate_run m n w cur :
  err n = None → Current n = Some cur →
  mutate m n w =
    let '(w1, r) := mutate_prop m cur w in
    match r with
    | inr e => Some ({| stack := stack n; err := Some e |}, w1, [CallMutation m cur r])
    | inl None => Some ({| stack := stack n; err := None |}, w1, [CallMutation m cur r])
    | inl (Some ev) =>
        let '(w2, events) := ToEvents ev w1 in
        match notifyFrom (stack n) events (length (stack n)) w2 with
        | None => None
        | Some (e, w3, t) =>
            Some ({| stack := stack n; err := e |}, w3,
                  CallMutation m cur r :: CallToEvents ev events :: t)
        end
    end.
Proof.
  intros He Hcur.
  destruct m as [value|value|]; simpl;
    unfold Add, Replace, Delete, delegateMod, bind, call;
    rewrite He, (current_run n cur w Hcur).
  - destruct (Add_prop cur value w) as [w1 [[ev|]|e]]; try done.
    destruct (ToEvents ev w1) as [w2 events].
    destruct (notifyFrom _ _ _ _) as [[[? ?] ?]|]; [|done].
    unfold ret. simpl. by rewrite app_nil_r.
  - destruct (Replace_prop cur value w) as [w1 [[ev|]|e]]; try done.
    destruct (ToEvents ev w1) as [w2 events].
    destruct (notifyFrom _ _ _ _) as [[[? ?] ?]|]; [|done].
    unfold ret. simpl. by rewrite app_nil_r.
  - destruct (Delete_prop cur w) as [w1 [[ev|]|e]]; try done.
    destruct (ToEvents ev w1) as [w2 events].
    destruct (notifyFrom _ _ _ _) as [[[? ?] ?]|]; [|done].
    unfold ret. simpl. by rewrite app_nil_r.
Qed.

(** When every level below [k] accepts in turn, the loop gets through all
    of them, and only then. *)
Lemma notifyFrom_all_accept (s : list Property) events k :
  k ≤ length s →
  ∀ w w3,
    all_accept events (reverse (take k s)) w = Some w3 →
    notifyFrom s events k w
    = Some (None, w3, accepted events (reverse (take k s))).
Proof.
  induction k as [|k IH]; intros Hk w w3 Hall.
  - rewrite take_0 in *. simpl in Hall. by injection Hall as ->.
  - destruct (lookup_lt_is_Some_2 s k) as [p Hp]; [lia|].
    rewrite (take_S_r s k p Hp), reverse_snoc in *. simpl in Hall.
    simpl. rewrite Hp. unfold bind, call.
    destruct (Notify p events w) as [w1 [e|]]; [done|].
    by rewrite (IH ltac:(lia) w1 w3 Hall).
Qed.

Lemma notifyFrom_clear_all_accept (s : list Property) events k :
  k ≤ length s →
  ∀ w w3 t,
    notifyFrom s events k w = Some (None, w3, t) →
    all_accept events (reverse (take k s)) w = Some w3.
Proof.
  induction k as [|k IH]; intros Hk w w3 t Hrun.
  - rewrite take_0. simpl. by injection Hrun as ->.
  - destruct (lookup_lt_is_Some_2 s k) as [p Hp]; [lia|].
    rewrite (take_S_r s k p Hp), reverse_snoc. simpl.
    simpl in Hrun. rewrite Hp in Hrun. unfold bind, call in Hrun.
    destruct (Notify p events w) as [w1 [e|]]; [done|].
    destruct (notifyFrom s events k w1) as [[[r2 w2] t2]|] eqn:Hrest; [|done].
    injection Hrun as -> -> _. by apply (IH ltac:(lia) w1 w3 t2).
Qed.

Lemma notifyFrom_all_accept_stack (s : list Property) events w w3 :
  all_accept events (reverse s) w = Some w3 →
  notifyFrom s events (length s) w = Some (None, w3, accepted events (reverse s)).
Proof.
  pose proof (notifyFrom_all_accept s events (length s) (le_n _) w w3) as Hk.
  by rewrite firstn_all in Hk.
Qed.

Lemma notifyFrom_clear_all_accept_stack (s : list Property) events w w3 t :
  notifyFrom s events (length s) w = Some (None, w3, t) →
  all_accept events (reverse s) w = Some w3.
Proof.
  pose proof (notifyFrom_clear_all_accept s events (length s) (le_n _) w w3 t) as Hk.
  by rewrite firstn_all in Hk.
Qed.

(** A mutation that yielded an event ends with the navigator clear exactly
    when every stack level, notified in turn from the top, accepts. *)
Lemma mutation_ends_clear_iff m n w cur ev w1 w2 events w3 :
  err n = None →
  Current n = Some cur →
  mutate_prop m cur w = (w1, inl (Some ev)) →
  ToEvents ev w1 = (w2, events) →
  (∃ n' t, mutate m n w = Some (n', w3, t) ∧ err n' = None)
  ↔ all_accept events (reverse (stack n)) w2 = Some w3.
Proof.
  intros He Hcur Hmut Hev.
  rewrite (mutate_run m n w cur He Hcur), Hmut, Hev. split.
  - intros (n' & t & Hrun & Hclear).
    destruct (notifyFrom (stack n) events (length (stack n)) w2)
      as [[[r w4] t4]|] eqn:Hloop; [|done].
    injection Hrun as <- <- _. simpl in Hclear. subst r.
    by apply (notifyFrom_clear_all_accept_stack (stack n) events w2 w4 t4).
  - intros Hall.
    rewrite (notifyFrom_all_accept_stack (stack n) events w2 w3 Hall).
    by eexists _, _.
Qed.

(** C1. On a clear navigator, take a successful [Add], [Replace] or
    [Delete]: the property's mutation returns no error and a non-null event,
    and every stack level, notified in turn from the top, accepts (which is
    exactly when the method ends clear).  Then the method returns the same,
    still clear navigator, and the calls it made are the mutation on
    [Current], one flattening of the event, and then [Notify] exactly once
    per stack level, from [Current] (the last element) down to [Source]
    (the first), each with the same flattened events; the world is the one
    the levels leave, in that order. *)
Theorem mutation_notifies_every_level m n w cur ev w1 w2 events w3 :
  err n = None →
  Current n = Some cur →
  mutate_prop m cur w = (w1, inl (Some ev)) →
  ToEvents ev w1 = (w2, events) →
  all_accept events (reverse (stack n)) w2 = Some w3 →
  ∃ t,
    mutate m n w = Some (n, w3, t)
    ∧ t = CallMutation m cur (inl (Some ev)) :: CallToEvents ev events
          :: accepted events (reverse (stack n))
    ∧ notified t = reverse (stack n)
    ∧ length (notified t) = Depth n
    ∧ head (notified t) = Current n
    ∧ last (notified t) = Source n.
Proof.
  intros He Hcur Hmut Hev Hall.
  rewrite (mutate_run m n w cur He Hcur), Hmut, Hev.
  rewrite (notifyFrom_all_accept_stack (stack n) events w2 w3 Hall).
  replace {| stack := stack n; err := None |} with n
    by (destruct n; simpl in *; by subst).
  eexists. split; [done|]. split; [done|].
  assert (Hn : notified (CallMutation m cur (inl (Some ev)) :: CallToEvents ev events
                 :: accepted events (reverse (stack n))) = reverse (stack n)).
  { change (?a :: ?b :: ?l) with ([a; b] ++ l).
    rewrite notified_app, notified_accepted. by destruct m. }
  rewrite Hn. split; [done|]. split; [|split].
  - unfold Depth. apply length_reverse.
  - by rewrite Current_last, head_reverse.
  - unfold Source. by rewrite last_reverse, head_lookup.
Qed.



Lemma notified_mutation m cur r t : notified (CallMutation m cur r :: t) = notified t.
Proof. by destruct m. Qed.


(** C10. On a clear navigator: if the property's [Add], [Replace] or
    [Delete] returns an error, that error becomes the sticky error; if it
    returns no error and a null event, the navigator stays clear.  Either
    way the mutation is the only call made: nothing is flattened and no
    stack level is notified. *)
Theorem failed_or_silent_mutation_notifies_nobody m n w cur :
  err n = None →
  Current n = Some cur →
  (∀ w1 e,
     mutate_prop m cur w = (w1, inr e) →
     mutate m n w = Some ({| stack := stack n; err := Some e |}, w1,
                          [CallMutation m cur (inr e)]))
  ∧ (∀ w1,
       mutate_prop m cur w = (w1, inl None) →
       mutate m n w = Some (n, w1, [CallMutation m cur (inl None)]))
  ∧ (∀ r, notified [CallMutation m cur r] = []).
Proof.
  intros He Hcur. split; [|split].
  - intros w1 e Hmut. by rewrite (mutate_run m n w cur He Hcur), Hmut.
  - intros w1 Hmut. rewrite (mutate_run m n w cur He Hcur), Hmut.
    destruct n as [s e]. simpl in He. by subst e.
  - intros r. by rewrite notified_mutation.
Qed.

(** ** Resolution *)

Lemma Dot_run n cur name w :
  err n = None → Current n = Some cur →
  Dot name n w =
    let '(w1, r) := ChildAtIndex cur (IndexName name) w in
    match r with
    | inl child =>
        Some ({| stack := stack n ++ [child]; err := None |}, w1,
              [CallChildAtIndex cur (IndexName name) r])
    | inr _ =>
        let '(w2, path) := AttributePath cur w1 in
        Some ({| stack := stack n;
                 err := Some (Errorf ErrInvalidPath
                          (sentinel_text ErrInvalidPath +:+ ": no attribute named '"
                             +:+ name +:+ "' from '" +:+ path +:+ "'")) |}, w2,
              [CallChildAtIndex cur (IndexName name) r; CallAttributePath cur path])
    end.
Proof.
  intros He Hcur. unfold Dot, bind, call. rewrite He, (current_run n cur w Hcur).
  destruct (ChildAtIndex cur (IndexName name) w) as [w1 [child|e]]; simpl.
  - done.
  - rewrite (current_run n cur w1 Hcur). by destruct (AttributePath cur w1).
Qed.

Lemma At_run n cur index w :
  err n = None → Current n = Some cur →
  At index n w =
    let '(w1, r) := ChildAtIndex cur (IndexInt index) w in
    match r with
    | inl child =>
        Some ({| stack := stack n ++ [child]; err := None |}, w1,
              [CallChildAtIndex cur (IndexInt index) r])
    | inr _ =>
        let '(w2, path) := AttributePath cur w1 in
        Some ({| stack := stack n;
                 err := Some (Errorf ErrNoTarget
                          (sentinel_text ErrNoTarget +:+ ": no target at index '"
                             +:+ pretty index +:+ "' from '" +:+ path +:+ "'")) |}, w2,
              [CallChildAtIndex cur (IndexInt index) r; CallAttributePath cur path])
    end.
Proof.
  intros He Hcur. unfold At, bind, call. rewrite He, (current_run n cur w Hcur).
  destruct (ChildAtIndex cur (IndexInt index) w) as [w1 [child|e]]; simpl.
  - done.
  - rewrite (current_run n cur w1 Hcur). by destruct (AttributePath cur w1).
Qed.

Lemma Where_run n cur criteria w :
  err n = None → Current n = Some cur →
  Where criteria n w =
    let '(w1, r) := FindChild cur criteria w in
    match r with
    | Some child =>
        Some ({| stack := stack n ++ [child]; err := None |}, w1, [CallFindChild cur r])
    | None =>
        let '(w2, path) := AttributePath cur w1 in
        Some ({| stack := stack n;
                 err := Some (Errorf ErrNoTarget
                          (sentinel_text ErrNoTarget
                             +:+ ": no target meeting criteria from '"
                             +:+ path +:+ "'")) |}, w2,
              [CallFindChild cur r; CallAttributePath cur path])
    end.
Proof.
  intros He Hcur. unfold Where, bind, call. rewrite He, (current_run n cur w Hcur).
  destruct (FindChild cur criteria w) as [w1 [child|]]; simpl.
  - done.
  - rewrite (current_run n cur w1 Hcur). by destruct (AttributePath cur w1).
Qed.

(** C5. On a clear navigator, a [Dot] whose child lookup fails leaves the
    stack as it was and sets the error to one wrapping [ErrInvalidPath],
    whose text names the requested attribute and the path of the current
    property; a failing [At] or [Where] leaves the stack as it was and sets
    an error wrapping [ErrNoTarget], with the index (for [At]) and the
    path. *)
Theorem resolution_failure_sets_error n cur w w1 w2 path :
  err n = None →
  Current n = Some cur →
  AttributePath cur w1 = (w2, path) →
  (∀ name e,
     ChildAtIndex cur (IndexName name) w = (w1, inr e) →
     ∃ n' t,
       Dot name n w = Some (n', w2, t)
       ∧ stack n' = stack n
       ∧ err n' = Some (Errorf ErrInvalidPath
                   (sentinel_text ErrInvalidPath +:+ ": no attribute named '"
                      +:+ name +:+ "' from '" +:+ path +:+ "'")))
  ∧ (∀ index e,
       ChildAtIndex cur (IndexInt index) w = (w1, inr e) →
       ∃ n' t,
         At index n w = Some (n', w2, t)
         ∧ stack n' = stack n
         ∧ err n' = Some (Errorf ErrNoTarget
                     (sentinel_text ErrNoTarget +:+ ": no target at index '"
                        +:+ pretty index +:+ "' from '" +:+ path +:+ "'")))
  ∧ (∀ criteria,
       FindChild cur criteria w = (w1, None) →
       ∃ n' t,
         Where criteria n w = Some (n', w2, t)
         ∧ stack n' = stack n
         ∧ err n' = Some (Errorf ErrNoTarget
                     (sentinel_text ErrNoTarget
                        +:+ ": no target meeting criteria from '"
                        +:+ path +:+ "'"))).
Proof.
  intros He Hcur Hpath. split; [|split].
  - intros name e Hres. rewrite (Dot_run n cur name w He Hcur), Hres, Hpath.
    by eexists _, _.
  - intros index e Hres. rewrite (At_run n cur index w He Hcur), Hres, Hpath.
    by eexists _, _.
  - intros criteria Hres. rewrite (Where_run n cur criteria w He Hcur), Hres, Hpath.
    by eexists _, _.
Qed.

(** ** ForEachChild *)

Lemma ForEachChild_run n cur callback w :
  err n = None → Current n = Some cur →
  ForEachChild callback n w =
    let '(w1, r) := ForEachChild_prop cur callback w in
    Some ((n, r), w1, [CallForEachChild cur r]).
Proof.
  intros He Hcur. unfold ForEachChild, bind, call.
  rewrite He, (current_run n cur w Hcur).
  by destruct (ForEachChild_prop cur callback w).
Qed.

(** C8, as the code has it.  On a clear navigator [ForEachChild] hands the
    iteration to the current property and returns what it returns, a failure
    of the iteration or of the callback included, unchanged; the navigator
    itself is left exactly as it was, so its sticky error stays clear. *)
Theorem ForEachChild_returns_failure n cur callback w w1 r :
  err n = None →
  Current n = Some cur →
  ForEachChild_prop cur callback w = (w1, r) →
  ForEachChild callback n w = Some ((n, r), w1, [CallForEachChild cur r])
  ∧ HasError n = false.
Proof.
  intros He Hcur Hres. rewrite (ForEachChild_run n cur callback w He Hcur), Hres.
  unfold HasError. by rewrite He.
Qed.

(** ** Sequences of advancing calls *)

Lemma resolutions_app t1 t2 : resolutions (t1 ++ t2) = resolutions t1 ++ resolutions t2.
Proof. apply omap_app. Qed.

Lemma resolved_before_failure_all k (rs : list bool) :
  resolved_before_failure (replicate k true ++ rs) = k + resolved_before_failure rs.
Proof. induction k as [|k IH]; [done|]. simpl. by rewrite IH. Qed.

(** One advancing call on a clear navigator either pushes the child it
    resolved, or keeps the stack and faults. *)
Lemma advance_run (s : Step) n cur w :
  err n = None → Current n = Some cur →
  ∃ n' w' t,
    advance s n w = Some (n', w', t)
    ∧ ((∃ child, n' = {| stack := stack n ++ [child]; err := None |})
         ∧ resolutions t = [true]
       ∨ stack n' = stack n ∧ is_Some (err n') ∧ resolutions t = [false]).
Proof.
  intros He Hcur. destruct s as [name|index|criteria]; simpl.
  - rewrite (Dot_run n cur name w He Hcur).
    destruct (ChildAtIndex cur (IndexName name) w) as [w1 [child|e]].
    + eexists _, _, _. split; [done|]. left. eauto.
    + destruct (AttributePath cur w1) as [w2 path].
      eexists _, _, _. split; [done|]. right. simpl. eauto.
  - rewrite (At_run n cur index w He Hcur).
    destruct (ChildAtIndex cur (IndexInt index) w) as [w1 [child|e]].
    + eexists _, _, _. split; [done|]. left. eauto.
    + destruct (AttributePath cur w1) as [w2 path].
      eexists _, _, _. split; [done|]. right. simpl. eauto.
  - rewrite (Where_run n cur criteria w He Hcur).
    destruct (FindChild cur criteria w) as [w1 [child|]].
    + eexists _, _, _. split; [done|]. left. eauto.
    + destruct (AttributePath cur w1) as [w2 path].
      eexists _, _, _. split; [done|]. right. simpl. eauto.
Qed.

Lemma advance_all_faulted (steps : list Step) n e w :
  err n = Some e → advance_all steps n w = Some (n, w, []).
Proof.
  intros He. induction steps as [|s rest IH]; [done|].
  simpl. unfold bind.
  replace (advance s n w) with (Some (n, w, @nil Call)); [by rewrite IH|].
  symmetry. destruct s; simpl.
  - by apply Dot_faulted with e.
  - by apply At_faulted with e.
  - by apply Where_faulted with e.
Qed.

(** From a clear navigator, a run of advancing calls resolves some [k] of
    them in a row and pushes as many; then it is either through, or the next
    call failed and the rest did nothing. *)
Lemma advance_all_run (steps : list Step) :
  ∀ n w, err n = None → stack n ≠ [] →
  ∃ n' w' t k,
    advance_all steps n w = Some (n', w', t)
    ∧ Depth n' = Depth n + k
    ∧ (err n' = None ∧ k = length steps ∧ resolutions t = replicate k true
       ∨ is_Some (err n') ∧ k < length steps
         ∧ resolutions t = replicate k true ++ [false]).
Proof.
  induction steps as [|s rest IH]; intros n w He Hs.
  - exists n, w, [], 0. split; [done|]. split; [lia|]. by left.
  - destruct (Current_is_Some n Hs) as [cur Hcur].
    destruct (advance_run s n cur w He Hcur) as (n1 & w1 & t1 & Hrun & Hcase).
    simpl. unfold bind. rewrite Hrun.
    destruct Hcase as [[[child ->] Ht1]|(Hstack & [e He1] & Ht1)].
    + destruct (IH {| stack := stack n ++ [child]; err := None |} w1 eq_refl)
        as (n' & w' & t2 & k & -> & Hdepth & Hcase).
      { simpl. by destruct (stack n). }
      exists n', w', (t1 ++ t2), (S k). split; [done|].
      unfold Depth in *. simpl in Hdepth. rewrite length_app in Hdepth.
      simpl in Hdepth. split; [lia|].
      rewrite resolutions_app, Ht1. simpl.
      destruct Hcase as [(? & ? & ->)|(? & ? & ->)]; [left|right];
        (split; [done|]); (split; [lia|done]).
    + rewrite (advance_all_faulted rest n1 e w1 He1).
      exists n1, w1, (t1 ++ []), 0. split; [done|].
      unfold Depth. rewrite Hstack. split; [lia|]. right.
      rewrite resolutions_app, Ht1. simpl. split; [by eexists|]. split; [lia|done].
Qed.

(** C3. From a fresh navigator, any sequence of [Dot], [At] and [Where]
    calls runs through, and the depth afterwards is 1 plus the number of
    resolutions that succeeded before the first one that failed; if none
    failed, that is 1 plus the length of the sequence and the navigator is
    clear. *)
Theorem Depth_counts_resolved_steps (steps : list Step) p w :
  ∃ n' w' t,
    advance_all steps (Navigate p) w = Some (n', w', t)
    ∧ Depth n' = 1 + resolved_before_failure (resolutions t)
    ∧ (false ∉ resolutions t → Depth n' = 1 + length steps ∧ err n' = None).
Proof.
  destruct (advance_all_run steps (Navigate p) w eq_refl ltac:(done))
    as (n' & w' & t & k & Hrun & Hdepth & Hcase).
  exists n', w', t. split; [done|].
  change (Depth (Navigate p)) with 1 in Hdepth.
  destruct Hcase as [(He & Hk & Ht)|(He & Hk & Ht)]; rewrite Ht.
  - split.
    + rewrite <- (app_nil_r (replicate k true)), resolved_before_failure_all.
      simpl. lia.
    + intros _. split; [lia|done].
  - split.
    + rewrite resolved_before_failure_all. simpl. lia.
    + intros Hno. exfalso. apply Hno. apply elem_of_app. right. apply list_elem_of_here.
Qed.

(** ** The stack invariant *)

Lemma mutate_total m n w :
  stack n ≠ [] → ∃ n' w' t, mutate m n w = Some (n', w', t) ∧ stack n' = stack n.
Proof.
  intros Hs. destruct (err n) as [e|] eqn:He.
  - rewrite (mutate_faulted n e m w He). by eexists _, _, _.
  - destruct (Current_is_Some n Hs) as [cur Hcur].
    rewrite (mutate_run m n w cur He Hcur).
    destruct (mutate_prop m cur w) as [w1 [[ev|]|e]];
      [|by eexists _, _, _|by eexists _, _, _].
    destruct (ToEvents ev w1) as [w2 events].
    destruct (notifyFrom_runs (stack n) events (length (stack n)) ltac:(lia) w2)
      as (r & w' & t & -> & _).
    by eexists _, _, _.
Qed.

(** Every method returns on a non-empty stack, and leaves the stack as it
    was, or with one more element at the end, or with the last one of
    several taken off. *)
Lemma invoke_total (method : Method) n w :
  stack n ≠ [] →
  ∃ n' w' t,
    invoke method n w = Some (n', w', t)
    ∧ (stack n' = stack n
       ∨ (∃ child, stack n' = stack n ++ [child])
       ∨ 1 < length (stack n) ∧ stack n' = take (length (stack n) - 1) (stack n)).
Proof.
  intros Hs. destruct (Current_is_Some n Hs) as [cur Hcur].
  assert (Hadv : ∀ s : Step, ∃ n' w' t,
            advance s n w = Some (n', w', t)
            ∧ (stack n' = stack n ∨ (∃ child, stack n' = stack n ++ [child])
               ∨ 1 < length (stack n)
                 ∧ stack n' = take (length (stack n) - 1) (stack n))).
  { intros s. destruct (err n) as [e|] eqn:He.
    - pose proof (advance_all_faulted [s] n e w He) as Hrun.
      simpl in Hrun. unfold bind in Hrun.
      destruct (advance s n w) as [[[n1 w1] t1]|]; [|done].
      injection Hrun as -> -> Ht. exists n, w, t1. split; [done|]. by left.
    - destruct (advance_run s n cur w He Hcur) as (n' & w' & t & -> & Hcase).
      exists n', w', t. split; [done|].
      destruct Hcase as [[[child ->] _]|(-> & _)]; [right; left; by eexists|by left]. }
  assert (Hmut : ∀ m, ∃ n' w' t,
            mutate m n w = Some (n', w', t)
            ∧ (stack n' = stack n ∨ (∃ child, stack n' = stack n ++ [child])
               ∨ 1 < length (stack n)
                 ∧ stack n' = take (length (stack n) - 1) (stack n))).
  { intros m. destruct (mutate_total m n w Hs) as (n' & w' & t & -> & Hst).
    exists n', w', t. split; [done|]. by left. }
  destruct method; simpl;
    try (eexists _, _, _; split; [reflexivity|]; by left).
  - unfold Source. destruct (stack n) as [|x s] eqn:Hst; [done|]. simpl.
    exists n, w, []. split; [reflexivity|]. by left.
  - unfold bind. rewrite (current_run n cur w Hcur).
    eexists _, _, _. split; [reflexivity|]. by left.
  - eexists _, _, _. split; [reflexivity|].
    unfold Retract, Depth. destruct (decide (1 < length (stack n))); [|by left].
    right. right. done.
  - apply (Hadv (StepDot name)).
  - apply (Hadv (StepAt index)).
  - apply (Hadv (StepWhere criteria)).
  - apply (Hmut (MutAdd value)).
  - apply (Hmut (MutReplace value)).
  - apply (Hmut MutDelete).
  - unfold bind. destruct (err n) as [e|] eqn:He.
    + rewrite (ForEachChild_faulted n e callback w He).
      eexists _, _, _. split; [reflexivity|]. by left.
    + rewrite (ForEachChild_run n cur callback w He Hcur).
      destruct (ForEachChild_prop cur callback w) as [w1 r].
      eexists _, _, _. split; [reflexivity|]. by left.
Qed.

Lemma invoke_all_keeps_source (methods : list Method) p :
  ∀ n w, head (stack n) = Some p →
  ∃ n' w' t, invoke_all methods n w = Some (n', w', t) ∧ head (stack n') = Some p.
Proof.
  induction methods as [|method rest IH]; intros n w Hp.
  - by exists n, w, [].
  - assert (Hs : stack n ≠ []) by (by destruct (stack n)).
    destruct (invoke_total method n w Hs) as (n1 & w1 & t1 & Hrun & Hcase).
    simpl. unfold bind. rewrite Hrun.
    destruct (IH n1 w1) as (n' & w' & t2 & -> & Hp').
    + destruct Hcase as [->|[[child ->]|[Hdeep ->]]]; [done| |].
      * by destruct (stack n).
      * destruct (stack n) as [|x [|y s]]; simpl in *; [done|lia|done].
    + by eexists _, _, _.
Qed.

(** C9. Whatever methods are called on a navigator made by [Navigate p], in
    whatever order, each call returns, and afterwards the stack has at least
    one element, its first element is still [p], and [Current] is its last
    element. *)
Theorem stack_invariant (methods : list Method) p w :
  ∃ n' w' t,
    invoke_all methods (Navigate p) w = Some (n', w', t)
    ∧ 1 ≤ Depth n'
    ∧ Source n' = Some p
    ∧ Current n' = last (stack n')
    ∧ is_Some (Current n').
Proof.
  destruct (invoke_all_keeps_source methods p (Navigate p) w eq_refl)
    as (n' & w' & t & Hrun & Hp).
  exists n', w', t. split; [done|].
  assert (Hs : stack n' ≠ []) by (by destruct (stack n')).
  split; [|split; [|split]].
  - unfold Depth. destruct (stack n'); [done|simpl; lia].
  - unfold Source. by rewrite <- head_lookup.
  - apply Current_last.
  - by apply Current_is_Some.
Qed.

(** * Further properties *)

(** ** Stepping in and stepping back *)

Lemma navigator_eta n : {| stack := stack n; err := err n |} = n.
Proof. by destruct n. Qed.

Lemma Retract_nonempty n : stack n ≠ [] → stack (Retract n) ≠ [].
Proof.
  intros Hs. unfold Retract, Depth. destruct (decide _) as [Hd|]; [|done].
  simpl. destruct (stack n) as [|x [|y s]]; simpl in *; [done|lia|done].
Qed.

(** X1. A [Dot], [At] or [Where] that resolves, followed by [Retract], gives
    back the navigator as it was before the step. *)
Theorem advance_then_Retract (s : Step) n w n' w' t :
  stack n ≠ [] →
  err n = None →
  advance s n w = Some (n', w', t) →
  err n' = None →
  Retract n' = n ∧ Depth n' = S (Depth n) ∧ Source n' = Source n.
Proof.
  intros Hs He Hrun He'. destruct (Current_is_Some n Hs) as [cur Hcur].
  destruct (advance_run s n cur w He Hcur) as (n1 & w1 & t1 & Hrun1 & Hcase).
  rewrite Hrun in Hrun1. injection Hrun1 as <- <- <-.
  destruct Hcase as [[[child ->] _]|(_ & [e He1] & _)]; [|congruence].
  split; [|split].
  - rewrite Retract_push by done. rewrite <- He. apply navigator_eta.
  - unfold Depth. simpl. rewrite length_app. simpl. lia.
  - unfold Source. simpl. by destruct (stack n).
Qed.

Lemma Retract_iter k n :
  stack n ≠ [] →
  Nat.iter k Retract n
  = {| stack := take (Nat.max 1 (Depth n - k)) (stack n); err := err n |}.
Proof.
  intros Hs.
  assert (Hd : 1 ≤ Depth n) by (unfold Depth; destruct (stack n); [done|simpl; lia]).
  induction k as [|k IH].
  - simpl. rewrite take_ge by (unfold Depth in *; lia). by rewrite navigator_eta.
  - simpl. rewrite IH. unfold Retract, Depth in *. simpl. rewrite length_take.
    destruct (decide _) as [Hdeep|Hshallow].
    + f_equal. rewrite take_take. f_equal. lia.
    + f_equal. f_equal. lia.
Qed.

(** X2. [k] retractions in a row cut the stack down to its first
    [max 1 (Depth - k)] elements and leave the error slot alone; from
    [Depth - 1] retractions on the navigator sits at its source, at depth 1,
    and further retractions change nothing. *)
Theorem Retract_repeated k n :
  stack n ≠ [] →
  stack (Nat.iter k Retract n) = take (Nat.max 1 (Depth n - k)) (stack n)
  ∧ err (Nat.iter k Retract n) = err n
  ∧ Source (Nat.iter k Retract n) = Source n
  ∧ (Depth n - 1 ≤ k →
       Depth (Nat.iter k Retract n) = 1
       ∧ Current (Nat.iter k Retract n) = Source n).
Proof.
  intros Hs. rewrite (Retract_iter k n Hs). simpl.
  assert (Hd : 1 ≤ Depth n) by (unfold Depth; destruct (stack n); [done|simpl; lia]).
  split; [done|]. split; [done|]. split.
  - unfold Source. simpl. rewrite lookup_take_lt by lia. done.
  - intros Hk. replace (Nat.max 1 (Depth n - k)) with 1 by lia.
    unfold Depth, Current, Source in *. simpl.
    by destruct (stack n) as [|x [|y s]].
Qed.

Lemma advance_all_grows (steps : list Step) :
  ∀ n w n' w' t,
    stack n ≠ [] → advance_all steps n w = Some (n', w', t) →
    ∃ pushed, stack n' = stack n ++ pushed.
Proof.
  induction steps as [|s rest IH]; intros n w n' w' t Hs Hrun.
  - injection Hrun as <- _ _. exists []. by rewrite app_nil_r.
  - destruct (err n) as [e|] eqn:He.
    + rewrite (advance_all_faulted (s :: rest) n e w He) in Hrun.
      injection Hrun as <- _ _. exists []. by rewrite app_nil_r.
    + destruct (Current_is_Some n Hs) as [cur Hcur].
      destruct (advance_run s n cur w He Hcur) as (n1 & w1 & t1 & Hrun1 & Hcase).
      simpl in Hrun. unfold bind in Hrun. rewrite Hrun1 in Hrun.
      destruct (advance_all rest n1 w1) as [[[n2 w2] t2]|] eqn:Hrest; [|done].
      injection Hrun as <- _ _.
      destruct Hcase as [[[child ->] _]|(Hstack & _ & _)].
      * assert (Hs1 : stack {| stack := stack n ++ [child]; err := None |} ≠ [])
          by (simpl; by destruct (stack n)).
        destruct (IH _ w1 n2 w2 t2 Hs1 Hrest) as [pushed Hp].
        simpl in Hp. exists (child :: pushed). by rewrite Hp, <- app_assoc.
      * assert (Hs1 : stack n1 ≠ []) by (by rewrite Hstack).
        destruct (IH n1 w1 n2 w2 t2 Hs1 Hrest) as [pushed Hp].
        exists pushed. by rewrite Hp, Hstack.
Qed.

(** X3. After any run of [Dot], [At] and [Where] calls, failed ones included,
    retracting as many times as the depth has grown brings the stack back
    to what it was before the run; the error slot is not touched by the
    retractions. *)
Theorem advance_all_then_unwind (steps : list Step) n w n' w' t :
  stack n ≠ [] →
  advance_all steps n w = Some (n', w', t) →
  Depth n ≤ Depth n'
  ∧ stack (Nat.iter (Depth n' - Depth n) Retract n') = stack n
  ∧ err (Nat.iter (Depth n' - Depth n) Retract n') = err n'.
Proof.
  intros Hs Hrun.
  destruct (advance_all_grows steps n w n' w' t Hs Hrun) as [pushed Hp].
  assert (Hs' : stack n' ≠ []) by (rewrite Hp; by destruct (stack n)).
  assert (Hd : 1 ≤ Depth n) by (unfold Depth; destruct (stack n); [done|simpl; lia]).
  assert (Hle : Depth n ≤ Depth n') by (unfold Depth; rewrite Hp, length_app; lia).
  split; [done|]. rewrite (Retract_iter _ n' Hs'). simpl. split; [|done].
  replace (Nat.max 1 (Depth n' - (Depth n' - Depth n))) with (length (stack n))
    by (unfold Depth in *; lia).
  by rewrite Hp, take_app_length.
Qed.

(** ** Chains of method calls *)

Lemma nonempty_Depth n : stack n ≠ [] → 1 ≤ Depth n.
Proof. unfold Depth. destruct (stack n); [done|simpl; lia]. Qed.

Lemma tally_cons (f : Method → bool) method (rest : list Method) :
  tally f (method :: rest) = (if f method then 1 else 0) + tally f rest.
Proof. unfold tally. simpl. by destruct (f method). Qed.

Lemma Retract_stack n :
  stack n ≠ [] → stack (Retract n) = take (Nat.max 1 (Depth n - 1)) (stack n).
Proof. intros Hs. pose proof (Retract_iter 1 n Hs) as H. simpl in H. by rewrite H. Qed.

Lemma advance_faulted (s : Step) n e w :
  err n = Some e → advance s n w = Some (n, w, []).
Proof.
  intros He. destruct s; simpl.
  - by apply Dot_faulted with e.
  - by apply At_faulted with e.
  - by apply Where_faulted with e.
Qed.

Lemma advance_effect (s : Step) n w :
  stack n ≠ [] →
  ∃ n' w' t,
    advance s n w = Some (n', w', t)
    ∧ (stack n' = stack n ∨ ∃ child, stack n' = stack n ++ [child]).
Proof.
  intros Hs. destruct (err n) as [e|] eqn:He.
  - rewrite (advance_faulted s n e w He). exists n, w, []. split; [done|by left].
  - destruct (Current_is_Some n Hs) as [cur Hcur].
    destruct (advance_run s n cur w He Hcur) as (n' & w' & t & -> & Hcase).
    exists n', w', t. split; [done|].
    destruct Hcase as [[[child ->] _]|(-> & _)]; [right; by exists child|by left].
Qed.

(** What one method call does to the stack: [Retract] retracts, the
    advancing calls keep it or push one child, the others keep it. *)
Lemma invoke_effect (method : Method) n w :
  stack n ≠ [] →
  ∃ n' w' t,
    invoke method n w = Some (n', w', t)
    ∧ (if retracting method then n' = Retract n
       else stack n' = stack n
            ∨ advancing method = true ∧ ∃ child, stack n' = stack n ++ [child]).
Proof.
  intros Hs. destruct (Current_is_Some n Hs) as [cur Hcur].
  assert (Hadv : ∀ s : Step, ∃ n' w' t,
            advance s n w = Some (n', w', t)
            ∧ (stack n' = stack n
               ∨ true = true ∧ ∃ child, stack n' = stack n ++ [child])).
  { intros s. destruct (advance_effect s n w Hs) as (n' & w' & t & -> & Hcase).
    exists n', w', t. split; [done|]. destruct Hcase; [by left|by right]. }
  assert (Hmut : ∀ m, ∃ n' w' t,
            mutate m n w = Some (n', w', t)
            ∧ (stack n' = stack n
               ∨ false = true ∧ ∃ child, stack n' = stack n ++ [child])).
  { intros m. destruct (mutate_total m n w Hs) as (n' & w' & t & -> & Hst).
    exists n', w', t. split; [done|]. by left. }
  destruct method; simpl;
    try (eexists _, _, _; split; [reflexivity|]; by left).
  - unfold Source. destruct (stack n) as [|x s] eqn:Hst; [done|]. simpl.
    exists n, w, []. split; [reflexivity|]. by left.
  - unfold bind. rewrite (current_run n cur w Hcur).
    eexists _, _, _. split; [reflexivity|]. by left.
  - by exists (Retract n), w, [].
  - apply (Hadv (StepDot name)).
  - apply (Hadv (StepAt index)).
  - apply (Hadv (StepWhere criteria)).
  - apply (Hmut (MutAdd value)).
  - apply (Hmut (MutReplace value)).
  - apply (Hmut MutDelete).
  - unfold bind. destruct (err n) as [e|] eqn:He.
    + rewrite (ForEachChild_faulted n e callback w He).
      eexists _, _, _. split; [reflexivity|]. by left.
    + rewrite (ForEachChild_run n cur callback w He Hcur).
      destruct (ForEachChild_prop cur callback w) as [w1 r].
      eexists _, _, _. split; [reflexivity|]. by left.
Qed.

Lemma invoke_all_app (ms1 ms2 : list Method) :
  ∀ n w, invoke_all (ms1 ++ ms2) n w = bind (invoke_all ms1 n) (invoke_all ms2) w.
Proof.
  induction ms1 as [|method rest IH]; intros n w; simpl.
  - unfold bind, ret. by destruct (invoke_all ms2 n w) as [[[? ?] ?]|].
  - unfold bind. destruct (invoke method n w) as [[[n1 w1] t1]|]; [|done].
    rewrite IH. unfold bind.
    destruct (invoke_all rest n1 w1) as [[[n2 w2] t2]|]; [|done].
    destruct (invoke_all ms2 n2 w2) as [[[n3 w3] t3]|]; [|done].
    by rewrite app_assoc.
Qed.

Lemma invoke_all_nonempty (methods : list Method) n w n' w' t :
  stack n ≠ [] → invoke_all methods n w = Some (n', w', t) → stack n' ≠ [].
Proof.
  intros Hs Hrun. destruct (stack n) as [|p s] eqn:Hst; [done|].
  destruct (invoke_all_keeps_source methods p n w) as (n1 & w1 & t1 & Hrun1 & Hp).
  { by rewrite Hst. }
  rewrite Hrun in Hrun1. injection Hrun1 as <- _ _. by destruct (stack n').
Qed.

(** In the faulted state a method other than [ClearError] makes no call,
    keeps the error, and moves the stack only if it is [Retract]. *)
Lemma invoke_faulted (method : Method) n e w :
  stack n ≠ [] → err n = Some e → clearing method = false →
  ∃ n',
    invoke method n w = Some (n', w, [])
    ∧ err n' = Some e
    ∧ stack n' = if retracting method then stack (Retract n) else stack n.
Proof.
  intros Hs He Hc. destruct (Current_is_Some n Hs) as [cur Hcur].
  destruct method; try discriminate Hc; simpl;
    try (exists n; split; [|done];
         first [reflexivity
               | by apply (invoke_guarded_faulted n e (InvokeDot name))
               | by apply (invoke_guarded_faulted n e (InvokeAt index))
               | by apply (invoke_guarded_faulted n e (InvokeWhere criteria))
               | by apply (invoke_guarded_faulted n e (InvokeAdd value))
               | by apply (invoke_guarded_faulted n e (InvokeReplace value))
               | by apply (invoke_guarded_faulted n e InvokeDelete)
               | by apply (invoke_guarded_faulted n e (InvokeForEachChild callback))]).
  - exists n. split; [|done]. unfold Source. by destruct (stack n).
  - exists n. split; [|done]. unfold bind. by rewrite (current_run n cur w Hcur).
  - exists (Retract n). split; [done|]. split; [|done].
    unfold Retract. by destruct (decide _).
Qed.

Lemma invoke_all_faulted (methods : list Method) :
  ∀ n e w,
    stack n ≠ [] → err n = Some e →
    Forall (fun method => clearing method = false) methods →
    ∃ n',
      invoke_all methods n w = Some (n', w, [])
      ∧ err n' = Some e
      ∧ stack n' = take (Nat.max 1 (Depth n - tally retracting methods)) (stack n).
Proof.
  induction methods as [|method rest IH]; intros n e w Hs He Hall.
  - exists n. split; [done|]. split; [done|].
    pose proof (nonempty_Depth n Hs). rewrite take_ge; [done|].
    unfold tally, Depth in *. simpl. lia.
  - apply Forall_cons in Hall as [Hc Hrest].
    destruct (invoke_faulted method n e w Hs He Hc) as (n1 & Hrun & He1 & Hst1).
    assert (Hs1 : stack n1 ≠ []).
    { rewrite Hst1. destruct (retracting method); [by apply Retract_nonempty|done]. }
    destruct (IH n1 e w Hs1 He1 Hrest) as (n' & Hrun' & He' & Hst').
    exists n'. simpl. unfold bind. rewrite Hrun, Hrun'. split; [done|].
    split; [done|]. rewrite Hst', tally_cons. unfold Depth. rewrite Hst1.
    pose proof (nonempty_Depth n Hs) as Hd. unfold Depth in Hd.
    destruct (retracting method).
    + rewrite (Retract_stack n Hs). unfold Depth.
      rewrite take_take, length_take. f_equal. lia.
    + f_equal.
Qed.

(** X4. Once a chain of calls has left the navigator faulted, whatever
    follows in the chain short of [ClearError] makes no call into the tree
    and leaves the world and the error as they are; of the calls that follow
    only [Retract] still has an effect, taking one element off the stack
    each time down to the source. *)
Theorem first_error_ends_the_chain (ms1 ms2 : list Method) n w n1 w1 t1 e :
  stack n ≠ [] →
  invoke_all ms1 n w = Some (n1, w1, t1) →
  err n1 = Some e →
  Forall (fun method => clearing method = false) ms2 →
  ∃ n2,
    invoke_all (ms1 ++ ms2) n w = Some (n2, w1, t1)
    ∧ err n2 = Some e
    ∧ stack n2 = take (Nat.max 1 (Depth n1 - tally retracting ms2)) (stack n1).
Proof.
  intros Hs Hrun He Hall.
  pose proof (invoke_all_nonempty ms1 n w n1 w1 t1 Hs Hrun) as Hs1.
  destruct (invoke_all_faulted ms2 n1 e w1 Hs1 He Hall) as (n2 & Hrun2 & He2 & Hst2).
  exists n2. rewrite invoke_all_app. unfold bind. rewrite Hrun, Hrun2.
  by rewrite app_nil_r.
Qed.

(** X5. Without [Retract] the stack is append-only: after any chain of the
    other methods the stack from before is a prefix of the stack after, and
    what was added is no longer than the number of [Dot], [At] and [Where]
    calls in the chain. *)
Theorem stack_append_only (methods : list Method) :
  ∀ n w,
    stack n ≠ [] →
    Forall (fun method => retracting method = false) methods →
    ∃ n' w' t pushed,
      invoke_all methods n w = Some (n', w', t)
      ∧ stack n' = stack n ++ pushed
      ∧ length pushed ≤ tally advancing methods.
Proof.
  induction methods as [|method rest IH]; intros n w Hs Hall.
  - exists n, w, [], []. split; [done|]. rewrite app_nil_r. split; [done|simpl; lia].
  - apply Forall_cons in Hall as [Hr Hrest].
    destruct (invoke_effect method n w Hs) as (n1 & w1 & t1 & Hrun & Hcase).
    rewrite Hr in Hcase.
    assert (Hs1 : stack n1 ≠ []).
    { destruct Hcase as [->|[_ [child ->]]]; [done|by destruct (stack n)]. }
    destruct (IH n1 w1 Hs1 Hrest) as (n' & w' & t2 & pushed & Hrun' & Hst & Hlen).
    simpl. unfold bind. rewrite Hrun, Hrun'. rewrite tally_cons.
    destruct Hcase as [Hsame|[Hadv [child Hpush]]].
    + exists n', w', (t1 ++ t2), pushed. split; [done|].
      rewrite Hst, Hsame. split; [done|lia].
    + exists n', w', (t1 ++ t2), (child :: pushed). split; [done|].
      rewrite Hst, Hpush, <- app_assoc, Hadv. split; [done|simpl; lia].
Qed.

(** X6. After any chain of method calls the depth is at least 1, at least
    the depth before minus the number of [Retract] calls, and at most the
    depth before plus the number of [Dot], [At] and [Where] calls. *)
Theorem Depth_bounds (methods : list Method) :
  ∀ n w,
    stack n ≠ [] →
    ∃ n' w' t,
      invoke_all methods n w = Some (n', w', t)
      ∧ 1 ≤ Depth n'
      ∧ Depth n - tally retracting methods ≤ Depth n'
      ∧ Depth n' ≤ Depth n + tally advancing methods.
Proof.
  induction methods as [|method rest IH]; intros n w Hs.
  - exists n, w, []. split; [done|]. pose proof (nonempty_Depth n Hs). lia.
  - destruct (invoke_effect method n w Hs) as (n1 & w1 & t1 & Hrun & Hcase).
    assert (Hs1 : stack n1 ≠ []).
    { destruct (retracting method).
      - subst n1. by apply Retract_nonempty.
      - destruct Hcase as [->|[_ [child ->]]]; [done|by destruct (stack n)]. }
    destruct (IH n1 w1 Hs1) as (n' & w' & t2 & Hrun' & Hone & Hlow & Hhigh).
    simpl. unfold bind. rewrite Hrun, Hrun'.
    exists n', w', (t1 ++ t2). split; [done|]. split; [done|].
    rewrite !tally_cons. pose proof (nonempty_Depth n Hs) as Hd.
    destruct (retracting method).
    + subst n1. unfold Depth in *. rewrite (Retract_stack n Hs) in Hlow, Hhigh.
      rewrite length_take in Hlow, Hhigh. unfold Depth in *.
      destruct (advancing method); lia.
    + destruct Hcase as [Hsame|[Hadv [child Hpush]]]; unfold Depth in *.
      * rewrite Hsame in Hlow, Hhigh. destruct (advancing method); lia.
      * rewrite Hpush, length_app in Hlow, Hhigh. simpl in Hlow, Hhigh.
        rewrite Hadv. lia.
Qed.

(** ** What a mutation does to the tree *)

Lemma notified_flatten_cons m cur r ev events t :
  notified (CallMutation m cur r :: CallToEvents ev events :: t) = notified t.
Proof. by rewrite notified_mutation. Qed.

(** X7. Whatever the state of the navigator and however the mutation goes,
    the properties [Add], [Replace] and [Delete] notify are a top segment of
    the stack, from the last element downwards: no property off the stack,
    no level twice, and no level before the one above it. *)
Theorem notified_is_top_of_stack m n w n' w' t :
  stack n ≠ [] →
  mutate m n w = Some (n', w', t) →
  ∃ i, i ≤ Depth n ∧ notified t = reverse (drop i (stack n)).
Proof.
  intros Hs Hrun. destruct (err n) as [e|] eqn:He.
  - rewrite (mutate_faulted n e m w He) in Hrun. injection Hrun as _ _ <-.
    exists (Depth n). split; [done|]. unfold Depth. by rewrite drop_all.
  - destruct (Current_is_Some n Hs) as [cur Hcur].
    rewrite (mutate_run m n w cur He Hcur) in Hrun.
    destruct (mutate_prop m cur w) as [w1 [[ev|]|e]].
    + destruct (ToEvents ev w1) as [w2 events].
      destruct (notifyFrom_runs (stack n) events (length (stack n)) ltac:(lia) w2)
        as (r & w3 & t3 & Hloop & Hr).
      rewrite Hloop in Hrun. injection Hrun as _ _ <-.
      rewrite notified_flatten_cons. rewrite firstn_all in Hr.
      destruct r as [e|].
      * destruct Hr as (i & p & Hi & Hp & ->). exists i. split; [unfold Depth; lia|].
        rewrite notified_app, notified_accepted. simpl.
        by rewrite (drop_S (stack n) p i Hp), reverse_cons.
      * subst t3. exists 0. split; [lia|]. by rewrite notified_accepted.
    + injection Hrun as _ _ <-. exists (Depth n). split; [done|].
      unfold Depth. by rewrite notified_mutation, drop_all.
    + injection Hrun as _ _ <-. exists (Depth n). split; [done|].
      unfold Depth. by rewrite notified_mutation, drop_all.
Qed.

Lemma notifyFrom_world (s : list Property) events k :
  ∀ w r w' t,
    notifyFrom s events k w = Some (r, w', t) →
    w' = foldl (fun v p => fst (Notify p events v)) w (notified t).
Proof.
  induction k as [|k IH]; intros w r w' t Hrun.
  - by injection Hrun as _ <- <-.
  - simpl in Hrun. destruct (s !! k) as [p|]; [|done].
    unfold bind, call in Hrun.
    destruct (Notify p events w) as [w1 [e|]] eqn:HN.
    + injection Hrun as _ <- <-. simpl. by rewrite HN.
    + destruct (notifyFrom s events k w1) as [[[r2 w2] t2]|] eqn:Hrest; [|done].
      injection Hrun as _ <- <-. simpl. rewrite HN. simpl.
      by apply IH with r2.
Qed.

(** X8. Nothing is rolled back.  On a clear navigator the world after
    [Add], [Replace] or [Delete] is the one the property's mutation left,
    if that failed or gave no event; otherwise it is the world after the
    flattening, passed through the [Notify] of each notified level in the
    order they were notified, the refusing level included. *)
Theorem world_after_mutation m n w cur w1 r n' w' t :
  err n = None →
  Current n = Some cur →
  mutate_prop m cur w = (w1, r) →
  mutate m n w = Some (n', w', t) →
  w' = match r with
       | inl (Some ev) =>
           foldl (fun v p => fst (Notify p (snd (ToEvents ev w1)) v))
                 (fst (ToEvents ev w1)) (notified t)
       | _ => w1
       end.
Proof.
  intros He Hcur Hmut Hrun.
  rewrite (mutate_run m n w cur He Hcur), Hmut in Hrun.
  destruct r as [[ev|]|e]; [|by injection Hrun as _ <- _|by injection Hrun as _ <- _].
  destruct (ToEvents ev w1) as [w2 events]. simpl.
  destruct (notifyFrom (stack n) events (length (stack n)) w2)
    as [[[r3 w3] t3]|] eqn:Hloop; [|done].
  injection Hrun as _ <- <-. rewrite notified_flatten_cons.
  by apply notifyFrom_world with (stack n) (length (stack n)) r3.
Qed.

Lemma refusal_accepted events (ps : list Property) :
  omap refusal (accepted events ps) = [].
Proof. by induction ps. Qed.

Lemma refusal_mutation m cur r :
  refusal (CallMutation m cur r) = match r with inr e => Some e | inl _ => None end.
Proof. by destruct m, r. Qed.

(** X9. On a clear navigator [Add], [Replace] and [Delete] stop at the first
    call that fails: the trace holds at most one failed mutation or [Notify],
    that call is the last one made, and its error, untouched, is the sticky
    error afterwards; with no such failure the navigator stays clear. *)
Theorem first_refusal_is_last_call m n w n' w' t :
  stack n ≠ [] →
  err n = None →
  mutate m n w = Some (n', w', t) →
  omap refusal t = option_list (err n')
  ∧ (is_Some (err n') → last t ≫= refusal = err n').
Proof.
  intros Hs He Hrun. destruct (Current_is_Some n Hs) as [cur Hcur].
  rewrite (mutate_run m n w cur He Hcur) in Hrun.
  destruct (mutate_prop m cur w) as [w1 [[ev|]|e]].
  - destruct (ToEvents ev w1) as [w2 events].
    destruct (notifyFrom_runs (stack n) events (length (stack n)) ltac:(lia) w2)
      as (r & w3 & t3 & Hloop & Hr).
    rewrite Hloop in Hrun. injection Hrun as <- _ <-. simpl.
    rewrite refusal_mutation. destruct r as [e|].
    + destruct Hr as (i & p & _ & _ & ->).
      rewrite omap_app, refusal_accepted. split; [done|]. intros _.
      rewrite !app_comm_cons, last_snoc. done.
    + subst t3. rewrite refusal_accepted. split; [done|]. by intros [? ?].
  - injection Hrun as <- _ <-. simpl. rewrite refusal_mutation.
    split; [done|]. by intros [? ?].
  - injection Hrun as <- _ <-. simpl. by rewrite refusal_mutation.
Qed.

(** ** Which properties are called *)

Lemma accepted_elem events (ps : list Property) c :
  c ∈ accepted events ps → ∃ q, c = CallNotify q events None ∧ q ∈ ps.
Proof. unfold accepted. by rewrite list_elem_of_fmap. Qed.

Lemma Current_on_stack n cur : Current n = Some cur → cur ∈ stack n.
Proof. unfold Current. apply list_elem_of_lookup_2. Qed.

Lemma advance_calls (s : Step) n cur w n' w' t :
  err n = None → Current n = Some cur →
  advance s n w = Some (n', w', t) →
  ∀ c, c ∈ t → receiver c = Some cur ∧ is_Notify c = false.
Proof.
  intros He Hcur Hrun c Hc. destruct s as [name|index|criteria]; simpl in Hrun.
  - rewrite (Dot_run n cur name w He Hcur) in Hrun.
    destruct (ChildAtIndex cur (IndexName name) w) as [w1 [child|e]].
    + injection Hrun as _ _ <-. by apply list_elem_of_singleton in Hc as ->.
    + destruct (AttributePath cur w1) as [w2 path]. injection Hrun as _ _ <-.
      apply elem_of_cons in Hc as [->|Hc]; [done|].
      by apply list_elem_of_singleton in Hc as ->.
  - rewrite (At_run n cur index w He Hcur) in Hrun.
    destruct (ChildAtIndex cur (IndexInt index) w) as [w1 [child|e]].
    + injection Hrun as _ _ <-. by apply list_elem_of_singleton in Hc as ->.
    + destruct (AttributePath cur w1) as [w2 path]. injection Hrun as _ _ <-.
      apply elem_of_cons in Hc as [->|Hc]; [done|].
      by apply list_elem_of_singleton in Hc as ->.
  - rewrite (Where_run n cur criteria w He Hcur) in Hrun.
    destruct (FindChild cur criteria w) as [w1 [child|]].
    + injection Hrun as _ _ <-. by apply list_elem_of_singleton in Hc as ->.
    + destruct (AttributePath cur w1) as [w2 path]. injection Hrun as _ _ <-.
      apply elem_of_cons in Hc as [->|Hc]; [done|].
      by apply list_elem_of_singleton in Hc as ->.
Qed.

Lemma receiver_mutation m cur r : receiver (CallMutation m cur r) = Some cur.
Proof. by destruct m. Qed.

Lemma is_Notify_mutation m cur r : is_Notify (CallMutation m cur r) = false.
Proof. by destruct m. Qed.

Lemma mutate_calls m n cur w n' w' t :
  err n = None → Current n = Some cur →
  mutate m n w = Some (n', w', t) →
  ∀ c p, c ∈ t → receiver c = Some p →
         p ∈ stack n ∧ (is_Notify c = false → p = cur).
Proof.
  intros He Hcur Hrun c p Hc Hp.
  pose proof (Current_on_stack n cur Hcur) as Hon.
  assert (Hfirst : ∀ r, c = CallMutation m cur r →
            p ∈ stack n ∧ (is_Notify c = false → p = cur)).
  { intros r ->. rewrite receiver_mutation in Hp. by injection Hp as <-. }
  rewrite (mutate_run m n w cur He Hcur) in Hrun.
  destruct (mutate_prop m cur w) as [w1 [[ev|]|e]].
  - destruct (ToEvents ev w1) as [w2 events].
    destruct (notifyFrom_runs (stack n) events (length (stack n)) ltac:(lia) w2)
      as (r & w3 & t3 & Hloop & Hr).
    rewrite Hloop in Hrun. injection Hrun as _ _ <-. rewrite firstn_all in Hr.
    apply elem_of_cons in Hc as [->|Hc]; [by eapply Hfirst|].
    apply elem_of_cons in Hc as [->|Hc]; [discriminate Hp|].
    assert (Hacc : ∀ i, c ∈ accepted events (reverse (drop i (stack n))) →
              p ∈ stack n ∧ (is_Notify c = false → p = cur)).
    { intros i (q & -> & Hq)%accepted_elem. injection Hp as <-.
      split; [|done]. rewrite elem_of_reverse in Hq.
      exact (subseteq_drop i (stack n) q Hq). }
    destruct r as [e|].
    + destruct Hr as (i & q & _ & Hq & ->).
      apply elem_of_app in Hc as [Hc|Hc]; [by eapply Hacc|].
      apply list_elem_of_singleton in Hc as ->. injection Hp as <-.
      split; [|done]. by eapply list_elem_of_lookup_2.
    + subst t3. by apply (Hacc 0).
  - injection Hrun as _ _ <-. apply list_elem_of_singleton in Hc. by eapply Hfirst.
  - injection Hrun as _ _ <-. apply list_elem_of_singleton in Hc. by eapply Hfirst.
Qed.

(** X10. The navigator only ever calls into properties on its own stack:
    whatever the method, every property it calls is an element of the stack
    as it was at the call, and every call other than [Notify] goes to
    [Current]. *)
Theorem calls_stay_on_the_stack (method : Method) n w n' w' t :
  stack n ≠ [] →
  invoke method n w = Some (n', w', t) →
  ∀ c p, c ∈ t → receiver c = Some p →
         p ∈ stack n ∧ (is_Notify c = false → Current n = Some p).
Proof.
  intros Hs Hrun c p Hc Hp. destruct (Current_is_Some n Hs) as [cur Hcur].
  pose proof (Current_on_stack n cur Hcur) as Hon.
  assert (Hadv : ∀ s : Step, advance s n w = Some (n', w', t) →
            p ∈ stack n ∧ (is_Notify c = false → Current n = Some p)).
  { intros s Hs'. destruct (err n) as [e|] eqn:He.
    - rewrite (advance_faulted s n e w He) in Hs'. injection Hs' as _ _ <-.
      by apply elem_of_nil in Hc.
    - destruct (advance_calls s n cur w n' w' t He Hcur Hs' c Hc) as [Hr _].
      rewrite Hr in Hp. by injection Hp as <-. }
  assert (Hmut : ∀ m, mutate m n w = Some (n', w', t) →
            p ∈ stack n ∧ (is_Notify c = false → Current n = Some p)).
  { intros m Hm. destruct (err n) as [e|] eqn:He.
    - rewrite (mutate_faulted n e m w He) in Hm. injection Hm as _ _ <-.
      by apply elem_of_nil in Hc.
    - destruct (mutate_calls m n cur w n' w' t He Hcur Hm c p Hc Hp) as [Hin Hcurp].
      split; [done|]. intros Hn. by rewrite (Hcurp Hn). }
  destruct method; simpl in Hrun;
    try (injection Hrun as _ _ <-; by apply elem_of_nil in Hc).
  - destruct (Source n); [|done]. injection Hrun as _ _ <-. by apply elem_of_nil in Hc.
  - unfold bind in Hrun. rewrite (current_run n cur w Hcur) in Hrun.
    injection Hrun as _ _ <-. by apply elem_of_nil in Hc.
  - by apply (Hadv (StepDot name)).
  - by apply (Hadv (StepAt index)).
  - by apply (Hadv (StepWhere criteria)).
  - by apply (Hmut (MutAdd value)).
  - by apply (Hmut (MutReplace value)).
  - by apply (Hmut MutDelete).
  - unfold bind in Hrun. destruct (err n) as [e|] eqn:He.
    + rewrite (ForEachChild_faulted n e callback w He) in Hrun.
      injection Hrun as _ _ <-. by apply elem_of_nil in Hc.
    + rewrite (ForEachChild_run n cur callback w He Hcur) in Hrun.
      destruct (ForEachChild_prop cur callback w) as [w1 r].
      injection Hrun as _ _ <-. simpl in Hc.
      apply list_elem_of_singleton in Hc as ->. by injection Hp as <-.
Qed.

End NavigatorFacts.

(** * The theorems at work on the sample tree *)

Section OnTheSampleTree.
Import Sample.

Lemma Retract_spec_witness :
  let n := Sample.at_value in
  1 < Depth n ∧ [0; 1; 2] ≠ [] ∧ stack n = [0; 1; 2] ++ [3]
  ∧ Depth (Retract n) = 3 ∧ Current (Retract n) = Some 2.
Proof.
  pose proof (Retract_spec Sample.at_value) as (_ & Hdeep & Hpush & _).
  assert (Hd : 1 < Depth Sample.at_value) by (vm_compute; lia).
  assert (Hs : [0; 1; 2] ≠ @nil (@Property Sample.api)) by discriminate.
  destruct (Hdeep Hd) as (Hdepth & _).
  destruct (Hpush [0; 1; 2] 3 Hs eq_refl) as (_ & Hcur).
  exact (conj Hd (conj Hs (conj eq_refl (conj Hdepth Hcur)))).
Defined.

Lemma ClearError_only_resets_error_witness :
  Current Sample.faulted = Some 2
  ∧ ChildAtIndex (2 : Property) (IndexName "value") Sample.quiet
    = (Sample.quiet, inl 3)
  ∧ HasError Sample.faulted = true
  ∧ Depth (ClearError Sample.faulted) = 3
  ∧ Dot "value" (ClearError Sample.faulted) Sample.quiet
    = Some ({| stack := [0; 1; 2; 3]; err := None |}, Sample.quiet,
            [CallChildAtIndex 2 (IndexName "value") (inl 3)]).
Proof.
  pose proof (ClearError_only_resets_error Sample.faulted)
    as (_ & Hd & _ & _ & _ & Hdot).
  split; [reflexivity|]. split; [reflexivity|]. split; [reflexivity|].
  split; [exact Hd|].
  exact (Hdot "value" 2 3 Sample.quiet Sample.quiet eq_refl eq_refl).
Defined.

Lemma faulted_is_inert_witness :
  err faulted = Some (Foreign "earlier failure")
  ∧ Dot "value" faulted quiet = Some (faulted, quiet, [])
  ∧ mutate replace_mail faulted quiet = Some (faulted, quiet, [])
  ∧ ForEachChild stop_at_once faulted quiet
    = Some ((faulted, Some (Foreign "earlier failure")), quiet, [])
  ∧ invoke_all [InvokeDot "value"; InvokeAdd "x"; InvokeDelete; InvokeAt 7] faulted quiet
    = Some (faulted, quiet, []).
Proof.
  pose proof (faulted_is_inert faulted (Foreign "earlier failure") eq_refl)
    as (Hdot & _ & _ & Hmut & Heach & Hall).
  split; [reflexivity|]. split; [apply Hdot|]. split; [apply Hmut|].
  split; [apply Heach|]. apply Hall. reflexivity.
Defined.

Lemma mutation_notifies_every_level_witness :
  err at_value = None
  ∧ Current at_value = Some 3
  ∧ mutate_prop replace_mail 3 quiet = (with_mail quiet, inl (Some mail_event))
  ∧ all_accept mail_events [3; 2; 1; 0] (with_mail quiet)
    = Some {| value_of_3 := "a@b.com"; heard := [3; 2; 1; 0]; refusing := [] |}
  ∧ ∃ t,
      mutate replace_mail at_value quiet
      = Some (at_value,
              {| value_of_3 := "a@b.com"; heard := [3; 2; 1; 0]; refusing := [] |},
              t)
      ∧ t = CallMutation replace_mail 3 (inl (Some mail_event))
            :: CallToEvents mail_event mail_events
            :: accepted mail_events [3; 2; 1; 0]
      ∧ notified t = [3; 2; 1; 0]
      ∧ length (notified t) = 4
      ∧ head (notified t) = Some 3
      ∧ last (notified t) = Some 0.
Proof.
  split; [reflexivity|]. split; [reflexivity|]. split; [reflexivity|].
  split; [reflexivity|].
  exact (mutation_notifies_every_level (api:=api) replace_mail at_value quiet 3
           mail_event (with_mail quiet) (with_mail quiet) mail_events
           {| value_of_3 := "a@b.com"; heard := [3; 2; 1; 0]; refusing := [] |}
           eq_refl eq_refl eq_refl eq_refl eq_refl).
Defined.


Lemma failed_or_silent_mutation_notifies_nobody_witness :
  err at_value = None
  ∧ Current at_value = Some 3
  ∧ mutate_prop (api:=api) MutDelete 3 quiet = (quiet, inl None)
  ∧ mutate MutDelete at_value quiet
    = Some (at_value, quiet, [CallMutation MutDelete 3 (inl None)]).
Proof.
  split; [reflexivity|]. split; [reflexivity|]. split; [reflexivity|].
  destruct (failed_or_silent_mutation_notifies_nobody MutDelete at_value quiet 3
              eq_refl eq_refl) as (_ & Hsilent & _).
  exact (Hsilent quiet eq_refl).
Defined.

Lemma resolution_failure_sets_error_witness :
  let n : defaultNavigator := {| stack := [0; 1]; err := None |} in
  Current n = Some 1
  ∧ ChildAtIndex (1 : Property) (IndexInt 5) quiet
    = (quiet, inr (Foreign "no such child"))
  ∧ ∃ n' t,
      At 5 n quiet = Some (n', quiet, t)
      ∧ stack n' = [0; 1]
      ∧ err n' = Some (Errorf ErrNoTarget
                         "noTarget: no target at index '5' from 'emails'").
Proof.
  intros n. split; [reflexivity|]. split; [reflexivity|].
  destruct (resolution_failure_sets_error n 1 quiet quiet quiet "emails"
              eq_refl eq_refl eq_refl) as (_ & Hat & _).
  exact (Hat 5%Z (Foreign "no such child") eq_refl).
Defined.

(** C8 with the failure also stored as the sticky error does not hold: a
    callback failure comes back from [ForEachChild], and the navigator is
    still clear afterwards. *)
Lemma ForEachChild_failure_is_not_stored :
  ¬ (∀ (n n' : @defaultNavigator api) callback w w' e t,
       err n = None →
       ForEachChild callback n w = Some ((n', Some e), w', t) →
       err n' = Some e).
Proof.
  intros Hclaim.
  specialize (Hclaim (Navigate 0) (Navigate 0) stop_at_once quiet quiet
                (Foreign "stop") [CallForEachChild 0 (Some (Foreign "stop"))]
                eq_refl eq_refl).
  discriminate Hclaim.
Qed.

Lemma ForEachChild_returns_failure_witness :
  err (Navigate 0) = None
  ∧ Current (Navigate 0) = Some 0
  ∧ ForEachChild stop_at_once (Navigate 0) quiet
    = Some ((Navigate 0, Some (Foreign "stop")), quiet,
            [CallForEachChild 0 (Some (Foreign "stop"))])
  ∧ HasError (Navigate 0) = false.
Proof.
  split; [reflexivity|]. split; [reflexivity|].
  exact (ForEachChild_returns_failure (Navigate 0) 0 stop_at_once quiet quiet
           (Some (Foreign "stop")) eq_refl eq_refl eq_refl).
Defined.

(** The scenario of the resource with one email: walking down to "value"
    and replacing it leaves depth 4 and notifies value, [E0], the collection
    and [R], in that order. *)
Example walk_down_and_replace :
  bind (advance_all [StepDot "emails"; StepAt 0; StepDot "value"] (Navigate 0))
       (mutate replace_mail) quiet
  = Some (at_value,
          {| value_of_3 := "a@b.com"; heard := [3; 2; 1; 0]; refusing := [] |},
          [CallChildAtIndex 0 (IndexName "emails") (inl 1);
           CallChildAtIndex 1 (IndexInt 0) (inl 2);
           CallChildAtIndex 2 (IndexName "value") (inl 3);
           CallReplace 3 "a@b.com" (inl (Some mail_event));
           CallToEvents mail_event mail_events;
           CallNotify 3 mail_events None;
           CallNotify 2 mail_events None;
           CallNotify 1 mail_events None;
           CallNotify 0 mail_events None])
  ∧ Depth at_value = 4.
Proof. split; reflexivity. Qed.

(** [At(5)] on the collection of one element: a "no target" error, and the
    depth stays 2; the [Dot] after it does nothing. *)
Example index_out_of_range :
  ∃ n' t,
    advance_all [StepDot "emails"; StepAt 5; StepDot "value"] (Navigate 0) quiet
    = Some (n', quiet, t)
    ∧ Depth n' = 2
    ∧ resolutions t = [true; false]
    ∧ (errors_Is <$> err n') = Some (fun s => match s with
                                              | ErrNoTarget => true
                                              | ErrInvalidPath => false
                                              end).
Proof. eexists _, _. split; [reflexivity|]. repeat split. Qed.

(** Retracting from the faulted navigator and clearing it: the way back to
    the source is open in the faulted state too. *)
Example unwind_after_fault :
  invoke_all [InvokeRetract; InvokeRetract; InvokeRetract; InvokeClearError; InvokeDot "emails"]
    faulted quiet
  = Some ({| stack := [0; 1]; err := None |}, quiet,
          [CallChildAtIndex 0 (IndexName "emails") (inl 1)]).
Proof. reflexivity. Qed.

Lemma advance_then_Retract_witness :
  let n : defaultNavigator := {| stack := [0; 1]; err := None |} in
  stack n ≠ []
  ∧ advance (StepAt 0) n quiet
    = Some ({| stack := [0; 1; 2]; err := None |}, quiet,
            [CallChildAtIndex 1 (IndexInt 0) (inl 2)])
  ∧ Retract {| stack := [0; 1; 2]; err := None |} = n
  ∧ Depth {| stack := [0; 1; 2]; err := None |} = 3.
Proof.
  intros n.
  assert (Hs : stack n ≠ []) by discriminate.
  destruct (advance_then_Retract (StepAt 0) n quiet _ _ _ Hs eq_refl eq_refl eq_refl)
    as (Hback & Hdepth & _).
  exact (conj Hs (conj eq_refl (conj Hback Hdepth))).
Defined.

Lemma Retract_repeated_witness :
  stack faulted ≠ []
  ∧ Depth faulted - 1 ≤ 5
  ∧ stack (Nat.iter 5 Retract faulted) = [0]
  ∧ err (Nat.iter 5 Retract faulted) = Some (Foreign "earlier failure")
  ∧ Current (Nat.iter 5 Retract faulted) = Some 0.
Proof.
  assert (Hs : stack faulted ≠ []) by discriminate.
  assert (Hk : Depth faulted - 1 ≤ 5) by (vm_compute; lia).
  destruct (Retract_repeated 5 faulted Hs) as (Hstack & Herr & _ & Hsrc).
  destruct (Hsrc Hk) as [_ Hcur].
  exact (conj Hs (conj Hk (conj Hstack (conj Herr Hcur)))).
Defined.

Lemma advance_all_then_unwind_witness :
  let steps := [StepDot "emails"; StepAt 0; StepAt 9; StepDot "value"] in
  stack (Navigate 0) ≠ []
  ∧ ∃ n' t,
      advance_all steps (Navigate 0) quiet = Some (n', quiet, t)
      ∧ Depth n' = 3
      ∧ HasError n' = true
      ∧ stack (Nat.iter (Depth n' - Depth (Navigate 0)) Retract n') = [0].
Proof.
  intros steps.
  assert (Hs : stack (Navigate 0) ≠ []) by discriminate.
  split; [exact Hs|]. eexists _, _. split; [reflexivity|].
  split; [reflexivity|]. split; [reflexivity|].
  exact (proj1 (proj2 (advance_all_then_unwind steps (Navigate 0) quiet _ _ _
                         Hs eq_refl))).
Defined.

Lemma first_error_ends_the_chain_witness :
  let ms1 : list (@Method api) := [InvokeDot "emails"; InvokeAt 9] in
  let ms2 : list (@Method api) :=
    [InvokeDot "value"; InvokeRetract; InvokeReplace "a@b.com"; InvokeHasError;
     InvokeRetract; InvokeRetract] in
  stack (Navigate (api:=api) 0) ≠ []
  ∧ Forall (fun method => clearing method = false) ms2
  ∧ ∃ n2 t,
      invoke_all (ms1 ++ ms2) (Navigate (api:=api) 0) quiet = Some (n2, quiet, t)
      ∧ err n2 = Some (Errorf ErrNoTarget
                         "noTarget: no target at index '9' from 'emails'")
      ∧ stack n2 = [0].
Proof.
  intros ms1 ms2.
  assert (Hs : stack (Navigate (api:=api) 0) ≠ []) by discriminate.
  assert (Hall : Forall (fun method => clearing method = false) ms2)
    by (repeat constructor).
  split; [exact Hs|]. split; [exact Hall|].
  destruct (first_error_ends_the_chain (api:=api) ms1 ms2 (Navigate (api:=api) 0) quiet _ _ _ _
              Hs eq_refl eq_refl Hall) as (n2 & Hrun & He & Hst).
  exists n2. eexists. split; [exact Hrun|]. split; [exact He|exact Hst].
Defined.

Lemma stack_append_only_witness :
  let methods : list (@Method api) :=
    [InvokeDot "emails"; InvokeHasError; InvokeAt 0; InvokeDot "value";
     InvokeReplace "a@b.com"; InvokeCurrent] in
  stack (Navigate (api:=api) 0) ≠ []
  ∧ Forall (fun method => retracting method = false) methods
  ∧ ∃ n' w' t pushed,
      invoke_all methods (Navigate (api:=api) 0) quiet = Some (n', w', t)
      ∧ stack n' = [0] ++ pushed
      ∧ length pushed ≤ 3.
Proof.
  intros methods.
  assert (Hs : stack (Navigate (api:=api) 0) ≠ []) by discriminate.
  assert (Hall : Forall (fun method => retracting method = false) methods)
    by (repeat constructor).
  split; [exact Hs|]. split; [exact Hall|].
  exact (stack_append_only (api:=api) methods (Navigate (api:=api) 0) quiet Hs Hall).
Defined.

Lemma Depth_bounds_witness :
  let methods : list (@Method api) :=
    [InvokeRetract; InvokeRetract; InvokeDot "emails"; InvokeAt 0] in
  stack at_value ≠ []
  ∧ ∃ n' w' t,
      invoke_all methods at_value quiet = Some (n', w', t)
      ∧ 1 ≤ Depth n'
      ∧ 4 - 2 ≤ Depth n'
      ∧ Depth n' ≤ 4 + 2.
Proof.
  intros methods.
  assert (Hs : stack at_value ≠ []) by discriminate.
  split; [exact Hs|].
  exact (Depth_bounds (api:=api) methods at_value quiet Hs).
Defined.

Lemma notified_is_top_of_stack_witness :
  stack at_value ≠ []
  ∧ ∃ n' w' t,
      mutate replace_mail at_value emails_refuse = Some (n', w', t)
      ∧ notified t = [3; 2; 1]
      ∧ ∃ i, i ≤ 4 ∧ notified t = reverse (drop i [0; 1; 2; 3]).
Proof.
  assert (Hs : stack at_value ≠ []) by discriminate.
  split; [exact Hs|]. eexists _, _, _. split; [reflexivity|]. split; [reflexivity|].
  exact (notified_is_top_of_stack (api:=api) replace_mail at_value emails_refuse _ _ _
           Hs eq_refl).
Defined.

Lemma world_after_mutation_witness :
  err at_value = None
  ∧ Current at_value = Some 3
  ∧ ∃ n' t,
      mutate replace_mail at_value emails_refuse
      = Some (n', {| value_of_3 := "a@b.com"; heard := [3; 2]; refusing := [1] |}, t)
      ∧ {| value_of_3 := "a@b.com"; heard := [3; 2]; refusing := [1] |}
        = foldl (fun v p => fst (notify p mail_events v)) (with_mail emails_refuse)
                (notified t).
Proof.
  split; [reflexivity|]. split; [reflexivity|].
  eexists _, _. split; [reflexivity|].
  exact (world_after_mutation (api:=api) replace_mail at_value emails_refuse 3
           (with_mail emails_refuse) (inl (Some mail_event)) _ _ _
           eq_refl eq_refl eq_refl eq_refl).
Defined.

Lemma first_refusal_is_last_call_witness :
  stack at_value ≠ []
  ∧ err at_value = None
  ∧ ∃ n' w' t,
      mutate replace_mail at_value emails_refuse = Some (n', w', t)
      ∧ omap refusal t = [Foreign "refused"]
      ∧ err n' = Some (Foreign "refused")
      ∧ omap refusal t = option_list (err n').
Proof.
  assert (Hs : stack at_value ≠ []) by discriminate.
  split; [exact Hs|]. split; [reflexivity|].
  eexists _, _, _. split; [reflexivity|]. split; [reflexivity|].
  split; [reflexivity|].
  exact (proj1 (first_refusal_is_last_call (api:=api) replace_mail at_value emails_refuse
                  _ _ _ Hs eq_refl eq_refl)).
Defined.

Lemma calls_stay_on_the_stack_witness :
  stack at_value ≠ []
  ∧ ∃ n' w' t,
      invoke (InvokeReplace "a@b.com") at_value quiet = Some (n', w', t)
      ∧ CallNotify 1 mail_events None ∈ t
      ∧ 1 ∈ stack at_value.
Proof.
  assert (Hs : stack at_value ≠ []) by discriminate.
  split; [exact Hs|]. eexists _, _, _. split; [reflexivity|].
  assert (Hin : CallNotify (1 : @Property api) mail_events None
                ∈ [CallReplace (3 : @Property api) "a@b.com" (inl (Some mail_event));
                   CallToEvents mail_event mail_events;
                   CallNotify 3 mail_events None; CallNotify 2 mail_events None;
                   CallNotify 1 mail_events None; CallNotify 0 mail_events None]).
  { do 4 apply list_elem_of_further. apply list_elem_of_here. }
  split; [exact Hin|].
  exact (proj1 (calls_stay_on_the_stack (api:=api) (InvokeReplace "a@b.com") at_value quiet
                  _ _ _ Hs eq_refl _ 1 Hin eq_refl)).
Defined.

End OnTheSampleTree.
